(** * zh2vid: the markdown segmentation engine of [app/services/utils/process_md.py]

    A shallow embedding of [split_markdown_for_video_with_image_split] (with its
    inner helper [split_long_text]) and of [get_script_segments], followed by
    the properties of the segmentation pipeline:

      text -> block grouper -> segment packer (sentence splitter)
           -> image-marker relocator -> segment classifier.

    The functions around the pipeline are embedded as well:
    [extract_post_info] and [process_markdown], which prepare its input, and
    from [app/services/article_video.py] the function
    [process_article_to_segments], which chains them, and the choice of the
    article image in [get_segment_visual].

    A Python [str] is a sequence of Unicode code points, modelled as a list of
    [N].  The character classes used by [str.strip], [str.split], [\s] and
    [\d] are those of CPython (Unicode 14.0).  Python's [int] is unbounded and
    is modelled by [Z]; the interpreter's optional cap on the number of digits
    accepted by [int()] is not part of the model. *)

From Stdlib Require Import String Ascii Decimal DecimalString DecimalFacts DecimalNat.
From Stdlib Require Import List NArith ZArith Bool Lia.
Import ListNotations.

(** ** Python strings *)

Definition char := N.
Definition str := list char.

(** An ASCII literal of the source, as a sequence of code points. *)
Definition py (s : string) : str := map N_of_ascii (list_ascii_of_string s).

Definition is_empty (s : str) : bool :=
  match s with [] => true | _ :: _ => false end.

(** Truthiness of a string or list: non-empty. *)
Definition truthy {A : Type} (l : list A) : bool :=
  match l with [] => false | _ :: _ => true end.

(** The code points for which [str.isspace] holds; [str.strip], [str.split]
    and the regular-expression class [\s] use the same set. *)
Definition whitespace_points : list N :=
  [0x9; 0xa; 0xb; 0xc; 0xd; 0x1c; 0x1d; 0x1e; 0x1f; 0x20; 0x85; 0xa0; 0x1680;
   0x2000; 0x2001; 0x2002; 0x2003; 0x2004; 0x2005; 0x2006; 0x2007; 0x2008;
   0x2009; 0x200a; 0x2028; 0x2029; 0x202f; 0x205f; 0x3000]%N.

Definition isspace (c : char) : bool := existsb (N.eqb c) whitespace_points.

(** The digit zero of every decimal-digit block (general category Nd); the
    digits 0..9 of a block are consecutive code points. *)
Definition decimal_zeros : list N :=
  [0x30; 0x660; 0x6f0; 0x7c0; 0x966; 0x9e6; 0xa66; 0xae6; 0xb66; 0xbe6; 0xc66;
   0xce6; 0xd66; 0xde6; 0xe50; 0xed0; 0xf20; 0x1040; 0x1090; 0x17e0; 0x1810;
   0x1946; 0x19d0; 0x1a80; 0x1a90; 0x1b50; 0x1bb0; 0x1c40; 0x1c50; 0xa620;
   0xa8d0; 0xa900; 0xa9d0; 0xa9f0; 0xaa50; 0xabf0; 0xff10; 0x104a0; 0x10d30;
   0x11066; 0x110f0; 0x11136; 0x111d0; 0x112f0; 0x11450; 0x114d0; 0x11650;
   0x116c0; 0x11730; 0x118e0; 0x11950; 0x11c50; 0x11d50; 0x11da0; 0x16a60;
   0x16ac0; 0x16b50; 0x1d7ce; 0x1d7d8; 0x1d7e2; 0x1d7ec; 0x1d7f6; 0x1e140;
   0x1e2f0; 0x1e950; 0x1fbf0]%N.

Definition in_block (c : char) (z : N) : bool := ((z <=? c) && (c <? z + 10))%N.

(** The value of a decimal digit, [None] for any other character. *)
Definition decimal_value (c : char) : option N :=
  match find (in_block c) decimal_zeros with
  | Some z => Some (c - z)%N
  | None => None
  end.

(** The class [\d] of a [str] pattern, and [str.isdecimal] on one character. *)
Definition isdecimal (c : char) : bool :=
  match decimal_value c with Some _ => true | None => false end.

Fixpoint lstrip (s : str) : str :=
  match s with
  | [] => []
  | c :: r => if isspace c then lstrip r else s
  end.

Definition rstrip (s : str) : str := rev (lstrip (rev s)).

(** [s.strip()] *)
Definition strip (s : str) : str := rstrip (lstrip s).

(** [s.split()]: the maximal runs of non-whitespace characters. *)
Fixpoint split_ws (s : str) : list str :=
  match s with
  | [] => []
  | c :: r =>
      if isspace c then split_ws r
      else match r with
           | [] => [[c]]
           | d :: _ =>
               if isspace d then [c] :: split_ws r
               else match split_ws r with
                    | w :: ws => (c :: w) :: ws
                    | [] => [[c]]
                    end
           end
  end.

(** [len(s.split())] *)
Definition word_count (s : str) : Z := Z.of_nat (length (split_ws s)).

(** [s.split(sep)] for a one-character separator. *)
Fixpoint split_on (sep : char) (s : str) : list str :=
  match s with
  | [] => [[]]
  | c :: r =>
      if (c =? sep)%N then [] :: split_on sep r
      else match split_on sep r with
           | w :: ws => (c :: w) :: ws
           | [] => [[c]]
           end
  end.

(** [sep.join(l)] *)
Fixpoint join (sep : str) (l : list str) : str :=
  match l with
  | [] => []
  | x :: r => match r with
              | [] => x
              | _ :: _ => x ++ sep ++ join sep r
              end
  end.

(** [strip_prefix p s] is the rest of [s] after its prefix [p]. *)
Fixpoint strip_prefix (p s : str) : option str :=
  match p with
  | [] => Some s
  | a :: p' => match s with
               | [] => None
               | c :: r => if (a =? c)%N then strip_prefix p' r else None
               end
  end.

(** [s.startswith(p)] *)
Definition startswith (p s : str) : bool :=
  match strip_prefix p s with Some _ => true | None => false end.

(** [needle in hay] on strings: [needle] occurs in [hay] as a substring. *)
Fixpoint contains (needle hay : str) : bool :=
  startswith needle hay ||
  match hay with
  | [] => false
  | _ :: r => contains needle r
  end.

Fixpoint take_while (f : char -> bool) (s : str) : str :=
  match s with
  | [] => []
  | c :: r => if f c then c :: take_while f r else []
  end.

Fixpoint drop_while (f : char -> bool) (s : str) : str :=
  match s with
  | [] => []
  | c :: r => if f c then drop_while f r else s
  end.

Definition nl : char := 10%N.
Definition space : char := 32%N.

(** [int(s)] on a non-empty string of decimal digits.  [None] stands for the
    [ValueError] that [int] raises on the empty string and on a character it
    does not accept; the model answers [None] on every string that is not
    made of digits only, which covers every string on which [int] raises. *)
Fixpoint int_digits (acc : Z) (s : str) : option Z :=
  match s with
  | [] => Some acc
  | c :: r => match decimal_value c with
              | Some v => int_digits (10 * acc + Z.of_N v) r
              | None => None
              end
  end.

Definition py_int (s : str) : option Z :=
  match s with
  | [] => None
  | _ :: _ => int_digits 0 s
  end.

(** ** The regular expressions of the source *)

(** The result of [re.search]: [match.start()], [match.end()] and
    [match.group(1)]. *)
Record re_match : Type := mk_match { m_start : nat; m_end : nat; group1 : str }.

(** [!\[\]\(\$(\d+)\$\)] anchored at the head of [s]: the digits of group 1
    and the length of the match.  The greedy [\d+] takes the whole run of
    digits; giving some back cannot help, since a digit is not [$].  The
    relocator uses the same pattern without the group. *)
Definition match_marker (s : str) : option (str * nat) :=
  match strip_prefix (py "![]($") s with
  | None => None
  | Some r =>
      let ds := take_while isdecimal r in
      match ds, strip_prefix (py "$)") (drop_while isdecimal r) with
      | _ :: _, Some _ => Some (ds, 5 + length ds + 2)
      | _, _ => None
      end
  end.

(** [re.search(image_pattern, s)]: the leftmost match; [i] is the position of
    the head of [s] in the searched string. *)
Fixpoint search_from (i : nat) (s : str) : option re_match :=
  match match_marker s with
  | Some (ds, len) => Some (mk_match i (i + len) ds)
  | None => match s with
            | [] => None
            | _ :: r => search_from (S i) r
            end
  end.

Definition re_search (s : str) : option re_match := search_from 0 s.

(** [re.sub(image_pattern, '', s)]: one scan from the left that deletes every
    match it meets; [skip] counts the characters of the current match that
    are still to be passed over. *)
Fixpoint sub_from (skip : nat) (s : str) : str :=
  match s with
  | [] => []
  | c :: r =>
      match skip with
      | S k => sub_from k r
      | O => match match_marker s with
             | Some (_, len) => sub_from (pred len) r
             | None => c :: sub_from 0 r
             end
      end
  end.

Definition re_sub_marker (s : str) : str := sub_from 0 s.

(** [re.findall(image_pattern, s)]: group 1 of every match of the same scan. *)
Fixpoint findall_from (skip : nat) (s : str) : list str :=
  match s with
  | [] => []
  | _ :: r =>
      match skip with
      | S k => findall_from k r
      | O => match match_marker s with
             | Some (ds, len) => ds :: findall_from (pred len) r
             | None => findall_from 0 r
             end
      end
  end.

Definition findall (s : str) : list str := findall_from 0 s.

(** [re.sub(r'\s+', ' ', s)]: every maximal run of whitespace becomes one
    space; [in_run] tells that the previous character was whitespace. *)
Fixpoint sub_ws_from (in_run : bool) (s : str) : str :=
  match s with
  | [] => []
  | c :: r =>
      if isspace c
      then (if in_run then sub_ws_from true r else space :: sub_ws_from true r)
      else c :: sub_ws_from false r
  end.

Definition re_sub_ws (s : str) : str := sub_ws_from false s.

(** [re.match(r'^\d+\.', s)] as a truth value. *)
Definition match_numbered (s : str) : bool :=
  truthy (take_while isdecimal s) && startswith (py ".") (drop_while isdecimal s).

Definition is_terminal (c : char) : bool :=
  existsb (N.eqb c) (py ".!?").

Definition head_is_space (s : str) : bool :=
  match s with
  | [] => false
  | c :: _ => isspace c
  end.

(** [re.split(r'([.!?])\s+', s)]: the text between the matches, each match
    contributing its group 1.  [cur] is the text since the last match;
    [skipping] holds while the scan is inside the [\s+] of a match. *)
Fixpoint split_from (skipping : bool) (cur : str) (s : str) : list str :=
  match s with
  | [] => [cur]
  | c :: r =>
      if skipping && isspace c then split_from true cur r
      else if is_terminal c && head_is_space r
           then cur :: [c] :: split_from true [] r
           else split_from false (cur ++ [c]) r
  end.

Definition re_split_sentence (s : str) : list str := split_from false [] s.

(** ** [split_long_text]: the sentence splitter *)

(** The [while] loop that puts each sentence back together with its
    punctuation.  The index [i] of the source is the position of the head of
    [parts]; [parts[i + 1]] is read only under [i + 1 < len(parts)]. *)
Fixpoint recombine (parts : list str) : list str :=
  match parts with
  | [] => []
  | p :: tl =>
      match tl with
      | q :: rest =>
          if contains q (py ".!?") then (p ++ q) :: recombine rest
          else (if truthy (strip p) then [p] else []) ++ recombine tl
      | [] => if truthy (strip p) then [p] else []
      end
  end.

Definition sentences_of (text : str) : list str :=
  recombine (re_split_sentence text).

Module SplitLongText.

(** The variables of the packing loop. *)
Record state : Type := mk
  { segments : list str; current_segment : str; current_word_count : Z }.

Definition init : state := mk [] [] 0.

(** One iteration of [for sentence in sentences]. *)
Definition step (max_words : Z) (st : state) (sentence : str) : state :=
  let sentence := strip sentence in
  if negb (truthy sentence) then st
  else
    let sentence_words := word_count sentence in
    if (sentence_words >? max_words)%Z then
      let st1 :=
        if truthy (current_segment st)
        then mk (segments st ++ [strip (current_segment st)]) [] 0
        else st in
      mk (segments st1 ++ [sentence]) (current_segment st1)
         (current_word_count st1)
    else if (current_word_count st + sentence_words >? max_words)%Z then
      mk (if truthy (current_segment st)
          then segments st ++ [strip (current_segment st)]
          else segments st)
         sentence sentence_words
    else
      mk (segments st)
         (if truthy (current_segment st)
          then current_segment st ++ py " " ++ sentence
          else sentence)
         (current_word_count st + sentence_words)%Z.

(** The last chunk, after the loop. *)
Definition finish (st : state) : list str :=
  if truthy (strip (current_segment st))
  then segments st ++ [strip (current_segment st)]
  else segments st.

End SplitLongText.

Definition split_long_text (text : str) (max_words : Z) : list str :=
  SplitLongText.finish
    (fold_left (SplitLongText.step max_words) (sentences_of text)
       SplitLongText.init).

(** ** The block grouper *)

(** The test of a bullet or list item, on a stripped line. *)
Definition is_bullet (stripped : str) : bool :=
  startswith (py "-") stripped || startswith (py "*") stripped
  || match_numbered stripped.

Module Grouper.

Record state : Type := mk { blocks : list str; current_block : list str }.

Definition init : state := mk [] [].

(** [current_block and not (<current_block[-1] is a bullet>)]; the index
    [-1] is evaluated only when [current_block] is non-empty. *)
Definition last_is_plain (current_block : list str) : bool :=
  match rev current_block with
  | [] => false
  | l :: _ => negb (is_bullet (strip l))
  end.

(** One iteration of [for line in lines]. *)
Definition step (st : state) (line : str) : state :=
  let stripped := strip line in
  if negb (truthy stripped) then
    if truthy (current_block st)
    then mk (blocks st ++ [join [nl] (current_block st)]) []
    else st
  else if startswith (py "#") stripped then
    let st1 :=
      if truthy (current_block st)
      then mk (blocks st ++ [join [nl] (current_block st)]) []
      else st in
    mk (blocks st1 ++ [stripped]) (current_block st1)
  else if is_bullet stripped then
    if last_is_plain (current_block st)
    then mk (blocks st ++ [join [nl] (current_block st)]) [line]
    else mk (blocks st) (current_block st ++ [line])
  else mk (blocks st) (current_block st ++ [line]).

Definition finish (st : state) : list str :=
  if truthy (current_block st)
  then blocks st ++ [join [nl] (current_block st)]
  else blocks st.

End Grouper.

(** The blocks of [text]: lines 153 to 187 of the source. *)
Definition group_blocks (text : str) : list str :=
  let lines := split_on nl (strip text) in
  Grouper.finish (fold_left Grouper.step lines Grouper.init).

(** ** The segment packer *)

Module Packer.

(** The variables of the bullet loop; [segments] is the list shared by the
    whole packer. *)
Record state : Type := mk
  { segments : list str; current_segment : str; current_words : Z }.

(** One iteration of [for line in lines_in_block]. *)
Definition step (max_words : Z) (st : state) (line : str) : state :=
  let line_words := word_count line in
  if (line_words >? max_words)%Z then
    let st1 :=
      if truthy (current_segment st)
      then mk (segments st ++ [strip (current_segment st)]) [] 0
      else st in
    mk (segments st1 ++ split_long_text line max_words)
       (current_segment st1) (current_words st1)
  else if (current_words st + line_words >? max_words)%Z then
    mk (if truthy (current_segment st)
        then segments st ++ [strip (current_segment st)]
        else segments st)
       line line_words
  else
    mk (segments st)
       (if truthy (current_segment st)
        then current_segment st ++ [nl] ++ line
        else line)
       (current_words st + line_words)%Z.

Definition finish (st : state) : list str :=
  if truthy (strip (current_segment st))
  then segments st ++ [strip (current_segment st)]
  else segments st.

(** One iteration of [for block in blocks]. *)
Definition pack_block (max_words : Z) (segments : list str) (block : str)
  : list str :=
  let block := strip block in
  if negb (truthy block) then segments
  else
    let word_count := word_count block in
    if (word_count <=? max_words)%Z then segments ++ [block]
    else
      let lines_in_block := split_on nl block in
      if existsb (fun l => is_bullet (strip l)) lines_in_block then
        finish (fold_left (step max_words) lines_in_block (mk segments [] 0))
      else segments ++ split_long_text block max_words.

End Packer.

(** The packed segments: lines 189 to 236 of the source. *)
Definition pack_blocks (blocks : list str) (max_words : Z) : list str :=
  fold_left (Packer.pack_block max_words) blocks [].

(** ** The image-marker relocator *)

(** One iteration of [for segment in segments], lines 243 to 262. *)
Definition relocate_step (final_segments : list str) (segment : str)
  : list str :=
  match re_search segment with
  | Some m =>
      let before_and_image := strip (firstn (m_end m) segment) in
      let after_text := strip (skipn (m_end m) segment) in
      let final_segments :=
        if truthy before_and_image
        then final_segments ++ [before_and_image] else final_segments in
      if truthy after_text
      then final_segments ++ [after_text] else final_segments
  | None => final_segments ++ [segment]
  end.

Definition relocate (segments : list str) : list str :=
  fold_left relocate_step segments [].

Definition split_markdown_for_video_with_image_split
    (text : str) (max_words : Z) : list str :=
  relocate (pack_blocks (group_blocks text) max_words).

(** ** The segment classifier *)

Record ScriptSegment : Type := mkScriptSegment
  { text : str; image_index : option Z; has_image : bool; raw_text : str }.

(** What a call returns: a value, or the exception it raises. *)
Inductive result (A : Type) : Type :=
| Ok (a : A)
| Raise (exn : string).
Arguments Ok {A} a.
Arguments Raise {A} exn.

Definition bind {A B : Type} (r : result A) (k : A -> result B) : result B :=
  match r with
  | Ok a => k a
  | Raise e => Raise e
  end.

Notation "x <- r ;; k" := (bind r (fun x => k))
  (at level 61, r at next level, right associativity).

(** [int(match.group(1))] *)
Definition int_of_group (m : re_match) : result Z :=
  match py_int (group1 m) with
  | Some n => Ok n
  | None => Raise "ValueError"
  end.

(** The segment built from [raw_text], before the test on its text. *)
Definition classify (raw_text : str) : result ScriptSegment :=
  match re_search raw_text with
  | Some m =>
      image_index <- int_of_group m ;;
      let clean_text := strip (re_sub_marker raw_text) in
      let clean_text := strip (re_sub_ws clean_text) in
      Ok (mkScriptSegment clean_text (Some image_index) true raw_text)
  | None =>
      let clean_text := strip raw_text in
      let clean_text := strip (re_sub_ws clean_text) in
      Ok (mkScriptSegment clean_text None false raw_text)
  end.

(** One iteration of [for raw_text in raw_segments]. *)
Definition classify_step (script_segments : result (list ScriptSegment))
    (raw_text : str) : result (list ScriptSegment) :=
  acc <- script_segments ;;
  segment <- classify raw_text ;;
  Ok (if truthy (text segment) then acc ++ [segment] else acc).

Definition get_script_segments (markdown_text : str) (max_words : Z)
  : result (list ScriptSegment) :=
  let raw_segments :=
    split_markdown_for_video_with_image_split markdown_text max_words in
  fold_left classify_step raw_segments (Ok []).

(** ** Vocabulary of the properties *)

(** The content of a string: its characters other than whitespace. *)
Definition nows (s : str) : str := filter (fun c => negb (isspace c)) s.

Definition contents (l : list str) : str := concat (map nows l).

(** No decimal digit lies ten or fewer code points after a point of [l]. *)
Definition clear_of (l : list N) : bool :=
  forallb (fun z => forallb (fun p => negb ((z <=? p) && (p <? z + 10))%N) l)
    decimal_zeros.

(** [rest] is empty or starts with a character outside the class [f]. *)
Definition head_stops (f : char -> bool) (rest : str) : Prop :=
  match rest with
  | [] => True
  | d :: _ => f d = false
  end.

(** The marker with index digits [ds]. *)
Definition marker (ds : str) : str := py "![]($" ++ ds ++ py "$)".

Definition digits (ds : str) : Prop :=
  ds <> [] /\ Forall (fun c => isdecimal c = true) ds.

(** A marker occurs in [s] at position [p]. *)
Definition marker_at (s : str) (p : nat) : Prop :=
  exists ds rest, digits ds /\ skipn p s = marker ds ++ rest.

(** [s] is [before], then its first marker, then [after]. *)
Definition first_marker (s before ds after : str) : Prop :=
  s = before ++ marker ds ++ after /\ digits ds
  /\ forall p, p < length before -> ~ marker_at s p.

Definition no_marker (s : str) : Prop := forall p, ~ marker_at s p.

(** The segments that the relocator emits for one packed segment. *)
Definition relocate_one (segment : str) : list str := relocate_step [] segment.

Definition splitter_content (st : SplitLongText.state) : str :=
  contents (SplitLongText.segments st) ++ nows (SplitLongText.current_segment st).

Definition grouper_content (st : Grouper.state) : str :=
  contents (Grouper.blocks st) ++ contents (Grouper.current_block st).

Definition packer_content (st : Packer.state) : str :=
  contents (Packer.segments st) ++ nows (Packer.current_segment st).


(** Whitespace normalisation: every run of whitespace collapsed to one space,
    both ends trimmed. *)
Definition normalize_ws (s : str) : str := strip (re_sub_ws s).

(** A segment is appended only when it is non-empty. *)
Definition emit (s : str) : list str := if truthy s then [s] else [].

(** The number of words that start in [s], when [s] follows whitespace
    ([prev_space]) or a word character. *)
Fixpoint starts (prev_space : bool) (s : str) : nat :=
  match s with
  | [] => 0
  | c :: r =>
      if isspace c then starts true r
      else (if prev_space then 1 else 0) + starts false r
  end.

(** Whether the last character read is whitespace, [b] before any. *)
Definition ends_space (b : bool) (s : str) : bool :=
  fold_left (fun _ c => isspace c) s b.

(** The texts that the packer hands to [split_long_text] while it packs
    [block]: the block itself when it is over the budget and has no bullet
    line, else its lines that are over the budget. *)
Definition splitter_inputs (max_words : Z) (block : str) : list str :=
  let block := strip block in
  if negb (truthy block) then []
  else if (word_count block <=? max_words)%Z then []
  else
    let lines_in_block := split_on nl block in
    if existsb (fun l => is_bullet (strip l)) lines_in_block
    then filter (fun line => (word_count line >? max_words)%Z) lines_in_block
    else [block].

(** [p] is one sentence of [unit], trimmed, with more words than the budget:
    the chunk that line 134 of the source appends unsplit. *)
Definition oversized_sentence_of (max_words : Z) (unit p : str) : Prop :=
  exists sentence,
    In sentence (sentences_of unit) /\ p = strip sentence
    /\ (word_count p > max_words)%Z.

(** [p] is an atomic unit among [blocks]: an oversized sentence of a text that
    reaches the sentence splitter. *)
Definition atomic_unit (max_words : Z) (blocks : list str) (p : str) : Prop :=
  exists block unit,
    In block blocks /\ In unit (splitter_inputs max_words block)
    /\ oversized_sentence_of max_words unit p.

(** The segment comes from a single atomic unit of the input: its raw text is
    what the relocator emits for one oversized sentence. *)
Definition formed_from_atomic_unit
    (markdown_text : str) (max_words : Z) (segment : ScriptSegment) : Prop :=
  exists p,
    atomic_unit max_words (group_blocks markdown_text) p
    /\ In (raw_text segment) (relocate_one p).

(** What a chunk of the sentence splitter is: within the budget, or one
    oversized sentence of the text. *)
Definition chunk_ok (max_words : Z) (unit p : str) : Prop :=
  (word_count p <= max_words)%Z \/ oversized_sentence_of max_words unit p.

Definition splitter_inv (max_words : Z) (unit : str) (st : SplitLongText.state)
  : Prop :=
  Forall (chunk_ok max_words unit) (SplitLongText.segments st)
  /\ word_count (SplitLongText.current_segment st)
     = SplitLongText.current_word_count st
  /\ (SplitLongText.current_segment st <> [] ->
      (SplitLongText.current_word_count st <= max_words)%Z).

(** What a packed segment is: within the budget, or one atomic unit. *)
Definition segment_ok (max_words : Z) (blocks : list str) (p : str) : Prop :=
  (word_count p <= max_words)%Z \/ atomic_unit max_words blocks p.

Definition packer_inv (max_words : Z) (blocks : list str) (st : Packer.state)
  : Prop :=
  Forall (segment_ok max_words blocks) (Packer.segments st)
  /\ word_count (Packer.current_segment st) = Packer.current_words st
  /\ (Packer.current_segment st <> [] ->
      (Packer.current_words st <= max_words)%Z).

(** A run of bullet or numbered lines followed by a run of other lines. *)
Definition bullets_then_plain (lines : list str) : Prop :=
  exists bullets plain,
    lines = bullets ++ plain
    /\ Forall (fun l => is_bullet (strip l) = true) bullets
    /\ Forall (fun l => is_bullet (strip l) = false) plain.

Definition no_newline (l : str) : Prop := ~ In nl l.

Definition grouper_inv (st : Grouper.state) : Prop :=
  Forall (fun b => bullets_then_plain (split_on nl b)) (Grouper.blocks st)
  /\ Forall no_newline (Grouper.current_block st)
  /\ bullets_then_plain (Grouper.current_block st).


(** Every marker of [s] is followed by whitespace or ends [s]. *)
Definition markers_delimited (s : str) : Prop :=
  forall p ds rest,
    digits ds -> skipn p s = marker ds ++ rest ->
    head_stops (fun c => negb (isspace c)) rest.

(** The same, as a test. *)
Fixpoint delimitedb (s : str) : bool :=
  match s with
  | [] => true
  | _ :: r =>
      match match_marker s with
      | Some (_, len) =>
          negb (truthy (skipn len s)) || head_is_space (skipn len s)
      | None => true
      end && delimitedb r
  end.

(** * The functions around the segmentation engine *)

(** ** Scans with any anchored pattern *)

(** [re.findall(pattern, s)] for a pattern without groups, and
    [re.sub(pattern, '', s)]: [m] matches the pattern at the head of a string
    and gives the length of the match; one scan from the left, as for the
    image pattern. *)
Fixpoint findall_with (m : str -> option nat) (skip : nat) (s : str)
  : list str :=
  match s with
  | [] => []
  | _ :: r =>
      match skip with
      | S k => findall_with m k r
      | O => match m s with
             | Some len => firstn len s :: findall_with m (pred len) r
             | None => findall_with m 0 r
             end
      end
  end.

Fixpoint sub_with (m : str -> option nat) (skip : nat) (s : str) : str :=
  match s with
  | [] => []
  | c :: r =>
      match skip with
      | S k => sub_with m k r
      | O => match m s with
             | Some len => sub_with m (pred len) r
             | None => c :: sub_with m 0 r
             end
      end
  end.

(** [.*?needle] at the head of [s], where [.] is any character but a
    newline: the length of the shortest match.  A longer stretch before
    [needle] cannot help what follows in the patterns below, which again is
    [.*?] up to a literal. *)
Fixpoint lazy_to (needle : str) (s : str) : option nat :=
  if startswith needle s then Some (length needle)
  else match s with
       | [] => None
       | c :: r => if (c =? nl)%N then None else option_map S (lazy_to needle r)
       end.

(** [a.*?b.*?c] at the head of [s], for literals [a], [b] and [c]. *)
Definition match_lazy3 (a b c : str) (s : str) : option nat :=
  match strip_prefix a s with
  | None => None
  | Some r =>
      match lazy_to b r with
      | None => None
      | Some n1 =>
          match lazy_to c (skipn n1 r) with
          | None => None
          | Some n2 => Some (length a + n1 + n2)
          end
      end
  end.

(** [s.replace(old, new, 1)] *)
Fixpoint replace_first (old new : str) (s : str) : str :=
  match strip_prefix old s with
  | Some rest => new ++ rest
  | None => match s with
            | [] => []
            | c :: r => c :: replace_first old new r
            end
  end.

(** [str(n)] for a natural number. *)
Definition str_of_nat (n : nat) : str :=
  py (NilEmpty.string_of_uint (Nat.to_uint n)).

(** ** [process_markdown] *)

(** [https://.*?zhimg\.com/.*?\.jpg] *)
Definition match_image_link : str -> option nat :=
  match_lazy3 (py "https://") (py "zhimg.com/") (py ".jpg").

(** [\((https://zhida\.zhihu\.com/search\?content_id=.*?&zd_token=.*?)\)] *)
Definition match_search_link : str -> option nat :=
  match_lazy3 (py "(https://zhida.zhihu.com/search?content_id=")
    (py "&zd_token=") (py ")").

(** [for i, link in enumerate(image_links)], from the index [i]. *)
Fixpoint replace_links (i : nat) (image_links : list str) (cleaned_output : str)
  : str :=
  match image_links with
  | [] => cleaned_output
  | link :: rest =>
      replace_links (S i) rest
        (replace_first link (py "$" ++ str_of_nat (i + 1) ++ py "$")
           cleaned_output)
  end.

Definition process_markdown (markdown_output : str) : str * list str :=
  let image_links := findall_with match_image_link 0 markdown_output in
  let cleaned_output := replace_links 0 image_links markdown_output in
  let cleaned_output := sub_with match_search_link 0 cleaned_output in
  (cleaned_output, image_links).

(** ** [extract_post_info] *)

(** The literals of the source, as code points: the two markers around the
    title, the two markers around the content, and the two fallbacks. *)
Definition title_open : str := [0x767b; 0x5f55; 0x2f; 0x6ce8; 0x518c]%N.
Definition title_close : str := [0x5207; 0x6362; 0x6a21; 0x5f0f]%N.
Definition title_missing : str := [0x6807; 0x9898; 0x672a; 0x627e; 0x5230]%N.
Definition content_open : str :=
  [0x5df2; 0x8ba4; 0x8bc1; 0x673a; 0x6784; 0x53f7]%N.
Definition content_close : str := [0x53d1; 0x5e03; 0x4e8e]%N.
Definition content_missing : str := [0x6b63; 0x6587; 0x672a; 0x627e; 0x5230]%N.

(** [(.*?)\s*close] with [re.DOTALL], at the head of [s]: the shortest group
    after which whitespace and then [close] follow; [group] is the group so
    far. *)
Fixpoint lazy_group (close : str) (group : str) (s : str) : option str :=
  if startswith close (lstrip s) then Some group
  else match s with
       | [] => None
       | c :: r => lazy_group close (group ++ [c]) r
       end.

(** [open\s*(.*?)\s*close] with [re.DOTALL], at the head of [s]: group 1.
    The greedy [\s*] after [open] takes all the whitespace; giving some back
    leaves the same strings to the rest of the pattern. *)
Definition match_between (open close : str) (s : str) : option str :=
  match strip_prefix open s with
  | None => None
  | Some r => lazy_group close [] (lstrip r)
  end.

(** [re.search(pattern, s, re.DOTALL)]: group 1 of the leftmost match. *)
Fixpoint search_between (open close : str) (s : str) : option str :=
  match match_between open close s with
  | Some group => Some group
  | None => match s with
            | [] => None
            | _ :: r => search_between open close r
            end
  end.

Definition extract_post_info (res : str) : str :=
  let text := res in
  let title :=
    match search_between title_open title_close text with
    | Some group => strip group
    | None => title_missing
    end in
  let content :=
    match search_between content_open content_close text with
    | Some group => strip group
    | None => content_missing
    end in
  py "# " ++ title ++ [nl; nl] ++ content.

(** ** [process_article_to_segments] *)



(** The character [#]. *)
Definition hash : char := 35%N.


(** [text] holds [open], whitespace, [body], whitespace and [close], in this
    order: [open] does not occur before, [body] has no whitespace at its ends
    and [close], with whitespace before it or not, does not start inside
    [body]. *)
Definition framed (open close text body : str) : Prop :=
  exists pre ws1 ws2 rest,
    text = pre ++ open ++ ws1 ++ body ++ ws2 ++ close ++ rest
    /\ (forall k, k < length pre -> startswith open (skipn k text) = false)
    /\ Forall (fun c => isspace c = true) ws1
    /\ Forall (fun c => isspace c = true) ws2
    /\ strip body = body
    /\ (forall k, k < length body ->
          startswith close (skipn k (body ++ ws2 ++ close ++ rest)) = false).

(** A page with both frames, as the site serves it. *)
Definition example_page : str :=
  py "Home " ++ title_open ++ [space; nl] ++ py "My title" ++ [space]
    ++ title_close ++ py " by " ++ content_open ++ [nl] ++ py "Body text."
    ++ [nl] ++ content_close ++ py " 2024".

(** A string with a character other than whitespace. *)
Definition nonblank (s : str) : Prop := nows s <> [].

(** A string that is not empty and has no whitespace at its ends. *)
Definition trimmed (s : str) : Prop := s <> [] /\ strip s = s.

(** Every line of [s] has a character other than whitespace; [seen] tells
    that the line read so far has one. *)
Fixpoint lines_nonblank (seen : bool) (s : str) : bool :=
  match s with
  | [] => seen
  | c :: r =>
      if (c =? nl)%N then seen && lines_nonblank false r
      else lines_nonblank (seen || negb (isspace c)) r
  end.

Definition splitter_trimmed (st : SplitLongText.state) : Prop :=
  Forall trimmed (SplitLongText.segments st)
  /\ (SplitLongText.current_segment st = []
      \/ nonblank (SplitLongText.current_segment st)).

Definition packer_trimmed (st : Packer.state) : Prop :=
  Forall trimmed (Packer.segments st)
  /\ (Packer.current_segment st = [] \/ nonblank (Packer.current_segment st)).

Definition grouper_nonblank (st : Grouper.state) : Prop :=
  Forall (fun b => lines_nonblank false b = true) (Grouper.blocks st)
  /\ Forall no_newline (Grouper.current_block st)
  /\ Forall nonblank (Grouper.current_block st).




(** ** [get_segment_visual]: the choice of the article image *)

(** The [image_url] that [get_segment_visual] downloads for a segment, lines
    242 to 245 of [article_video.py]; [None] where it goes on to the search
    for a visual. *)
Definition article_image_url (segment : ScriptSegment) (image_links : list str)
  : option str :=
  if has_image segment then
    match image_index segment with
    | Some image_index =>
        let image_idx := (image_index - 1)%Z in
        if (0 <=? image_idx)%Z && (image_idx <? Z.of_nat (length image_links))%Z
        then nth_error image_links (Z.to_nat image_idx)
        else None
    | None => None
    end
  else None.

(** ** The numbering of the image links in one pass *)

(** One scan of [s] from the left that puts [$i+1$], [$i+2$], ... in the
    place of the matches of [m] that it meets: what [re.sub] does with a
    counter.  [skip] is as in [sub_with]. *)
Fixpoint number_with (m : str -> option nat) (skip : nat) (i : nat) (s : str)
  : str :=
  match s with
  | [] => []
  | c :: r =>
      match skip with
      | S k => number_with m k i r
      | O => match m s with
             | Some len =>
                 (py "$" ++ str_of_nat (i + 1) ++ py "$")
                   ++ number_with m (pred len) (S i) r
             | None => c :: number_with m 0 i r
             end
      end
  end.

(** No match of [m] starts in the part [done] of [done ++ s]. *)
Definition no_match_before (m : str -> option nat) (done s : str) : Prop :=
  forall p, p < length done -> m (skipn p (done ++ s)) = None.
(** * Properties *)

(** ** The tests of the repository *)

(** [test_script_segment_with_image] *)
Example test_script_segment_with_image :
  get_script_segments (py "Money is a tool. ![]($1$)") 150
  = Ok [mkScriptSegment (py "Money is a tool.") (Some 1%Z) true
          (py "Money is a tool. ![]($1$)")].
Proof. reflexivity. Qed.

(** [test_script_segment_without_image] *)
Example test_script_segment_without_image :
  get_script_segments (py "Investing early leads to compound growth.") 150
  = Ok [mkScriptSegment (py "Investing early leads to compound growth.")
          None false (py "Investing early leads to compound growth.")].
Proof. reflexivity. Qed.

(** [test_mixed_segments]: five segments, the images 1 and 2 in this order. *)
Example test_mixed_segments :
  let test_md :=
    [nl] ++ join [nl]
      [py "# Title"; [];
       py "First paragraph without image."; [];
       py "Second paragraph with image. ![]($1$)"; [];
       py "Third paragraph without image."; [];
       py "Fourth paragraph with different image. ![]($2$)"] ++ [nl] in
  match get_script_segments test_md 150 with
  | Ok segments =>
      map text segments
      = [py "# Title"; py "First paragraph without image.";
         py "Second paragraph with image."; py "Third paragraph without image.";
         py "Fourth paragraph with different image."]
      /\ map image_index segments = [None; None; Some 1%Z; None; Some 2%Z]
  | Raise _ => False
  end.
Proof. vm_compute. split; reflexivity. Qed.

(** The split in the middle of a block, and a block over a budget of 3. *)
Example marker_mid_text :
  get_script_segments (py "A B C ![]($2$) D E F") 150
  = Ok [mkScriptSegment (py "A B C") (Some 2%Z) true (py "A B C ![]($2$)");
        mkScriptSegment (py "D E F") None false (py "D E F")].
Proof. reflexivity. Qed.

Example packing_under_budget :
  split_markdown_for_video_with_image_split
    (join [nl]
       [py "# T"; [];
        py "- a b c"; py "- d e. f g h i j k"; py "plain x y.  z w! q"; [];
        py "1. one two"; py "para a. b c d e! f?  g"]) 3
  = [py "# T"; py "- a b c"; py "- d e."; py "f g h i j k"; py "plain x y.";
     py "z w! q"; py "1. one two"; py "para a."; py "b c d e!"; py "f? g"].
Proof. vm_compute. reflexivity. Qed.

(** ** Characters *)

Lemma isspace_nl : isspace nl = true.
Proof. reflexivity. Qed.

Lemma isspace_space : isspace space = true.
Proof. reflexivity. Qed.

Lemma find_in_block (c : char) (l : list N) (z : N) :
  find (in_block c) l = Some z -> In z l /\ (z <= c < z + 10)%N.
Proof.
  intros H. apply find_some in H. destruct H as [Hin Hb].
  unfold in_block in Hb. apply andb_true_iff in Hb. destruct Hb as [H1 H2].
  apply N.leb_le in H1. apply N.ltb_lt in H2. auto.
Qed.

Lemma clear_of_sound (l : list N) (c : char) :
  clear_of l = true -> isdecimal c = true -> ~ In c l.
Proof.
  unfold clear_of, isdecimal, decimal_value. intros Hc Hd Hin.
  destruct (find (in_block c) decimal_zeros) as [z|] eqn:Hf; [|discriminate].
  apply find_in_block in Hf. destruct Hf as [Hz Hr].
  rewrite forallb_forall in Hc. specialize (Hc z Hz).
  rewrite forallb_forall in Hc. specialize (Hc c Hin).
  apply negb_true_iff in Hc. apply andb_false_iff in Hc.
  destruct Hc as [Hc|Hc]; [apply N.leb_gt in Hc | apply N.ltb_ge in Hc]; lia.
Qed.

Lemma isspace_In (c : char) : isspace c = true <-> In c whitespace_points.
Proof.
  unfold isspace. rewrite existsb_exists. split.
  - intros [x [Hin Hx]]. apply N.eqb_eq in Hx. now subst.
  - intros H. exists c. split; [assumption|apply N.eqb_refl].
Qed.

Lemma decimal_not_space (c : char) : isdecimal c = true -> isspace c = false.
Proof.
  intros Hd. destruct (isspace c) eqn:Hs; [|reflexivity].
  apply isspace_In in Hs.
  exfalso. revert Hs. apply clear_of_sound; [vm_compute; reflexivity|assumption].
Qed.

(** ** Whitespace: stripping and the non-whitespace content *)

Lemma nows_app (a b : str) : nows (a ++ b) = nows a ++ nows b.
Proof. apply filter_app. Qed.

Lemma nows_space_cons (c : char) (r : str) :
  isspace c = true -> nows (c :: r) = nows r.
Proof. intros H. unfold nows. simpl. now rewrite H. Qed.

Lemma nows_nonspace_cons (c : char) (r : str) :
  isspace c = false -> nows (c :: r) = c :: nows r.
Proof. intros H. unfold nows. simpl. now rewrite H. Qed.

Lemma nows_rev (s : str) : nows (rev s) = rev (nows s).
Proof.
  induction s as [|c r IH]; [reflexivity|].
  simpl. rewrite nows_app, IH. simpl.
  destruct (isspace c); simpl; [now rewrite app_nil_r|reflexivity].
Qed.

Lemma nows_lstrip (s : str) : nows (lstrip s) = nows s.
Proof.
  induction s as [|c r IH]; [reflexivity|].
  simpl. destruct (isspace c) eqn:Hc; simpl; [assumption|].
  now rewrite Hc.
Qed.

Lemma nows_rstrip (s : str) : nows (rstrip s) = nows s.
Proof.
  unfold rstrip. rewrite nows_rev, nows_lstrip, nows_rev. apply rev_involutive.
Qed.

Lemma nows_strip (s : str) : nows (strip s) = nows s.
Proof. unfold strip. now rewrite nows_rstrip, nows_lstrip. Qed.

Lemma lstrip_nil_iff (s : str) : lstrip s = [] <-> nows s = [].
Proof.
  induction s as [|c r IH]; [tauto|].
  simpl. destruct (isspace c); simpl; [assumption|].
  split; discriminate.
Qed.

Lemma strip_nil_iff (s : str) : strip s = [] <-> nows s = [].
Proof.
  unfold strip, rstrip. split.
  - intros H. apply (f_equal (@rev char)) in H. rewrite rev_involutive in H.
    simpl in H. apply lstrip_nil_iff in H. rewrite nows_rev, nows_lstrip in H.
    apply (f_equal (@rev char)) in H. now rewrite rev_involutive in H.
  - intros H.
    assert (Hl : lstrip (rev (lstrip s)) = []).
    { apply lstrip_nil_iff. now rewrite nows_rev, nows_lstrip, H. }
    now rewrite Hl.
Qed.

Lemma truthy_false_iff {A : Type} (l : list A) : truthy l = false <-> l = [].
Proof. destruct l; simpl; split; congruence. Qed.

Lemma truthy_true_iff {A : Type} (l : list A) : truthy l = true <-> l <> [].
Proof. destruct l; simpl; split; congruence. Qed.


(** A string that [strip] empties has no content. *)
Lemma falsy_strip_nows (s : str) : truthy (strip s) = false -> nows s = [].
Proof. intros H. apply strip_nil_iff. now apply truthy_false_iff. Qed.

Lemma nows_concat_app (l1 l2 : list str) :
  concat (map nows (l1 ++ l2)) = concat (map nows l1) ++ concat (map nows l2).
Proof. now rewrite map_app, concat_app. Qed.

Lemma nows_join_nl (l : list str) : nows (join [nl] l) = concat (map nows l).
Proof.
  induction l as [|x r IH]; [reflexivity|].
  destruct r as [|y r'].
  - simpl. now rewrite app_nil_r.
  - change (join [nl] (x :: y :: r')) with (x ++ [nl] ++ join [nl] (y :: r')).
    rewrite !nows_app, IH. reflexivity.
Qed.

Lemma split_on_cons (sep : char) (s : str) :
  exists w ws, split_on sep s = w :: ws.
Proof.
  destruct s as [|c r]; simpl; [eauto|].
  destruct (c =? sep)%N; [eauto|].
  destruct (split_on sep r); eauto.
Qed.

Lemma nows_split_on_nl (s : str) :
  concat (map nows (split_on nl s)) = nows s.
Proof.
  induction s as [|c r IH]; [reflexivity|].
  simpl. destruct (c =? nl)%N eqn:Hc.
  - apply N.eqb_eq in Hc. subst c. simpl. assumption.
  - destruct (split_on_cons nl r) as [w [ws Hw]]. rewrite Hw in *.
    simpl in *. destruct (isspace c); simpl; now rewrite <- IH.
Qed.

(** ** Loops that only add content *)

Arguments nows : simpl never.
Arguments strip : simpl never.
Arguments word_count : simpl never.

Section FoldContent.

Variables (S X : Type).
Variable step : S -> X -> S.
Variable content : S -> str.
Variable item : X -> str.
Hypothesis step_content :
  forall st x, content (step st x) = content st ++ item x.

Lemma fold_content (l : list X) (st : S) :
  content (fold_left step l st) = content st ++ concat (map item l).
Proof.
  revert st. induction l as [|x r IH]; intros st; simpl.
  - now rewrite app_nil_r.
  - now rewrite IH, step_content, <- app_assoc.
Qed.

End FoldContent.

Lemma contents_app (l1 l2 : list str) :
  contents (l1 ++ l2) = contents l1 ++ contents l2.
Proof. apply nows_concat_app. Qed.

Lemma contents_snoc (l : list str) (s : str) :
  contents (l ++ [s]) = contents l ++ nows s.
Proof. rewrite contents_app. unfold contents. simpl. now rewrite app_nil_r. Qed.

Lemma contents_cons (x : str) (l : list str) :
  contents (x :: l) = nows x ++ contents l.
Proof. reflexivity. Qed.

Lemma nows_cons (c : char) (r : str) : nows (c :: r) = nows [c] ++ nows r.
Proof. apply (nows_app [c] r). Qed.

Lemma nows_concat (l : list str) : nows (concat l) = contents l.
Proof.
  induction l as [|x r IH]; [reflexivity|].
  simpl. rewrite nows_app, IH. reflexivity.
Qed.

Lemma contents_single (s : str) : contents [s] = nows s.
Proof. unfold contents. simpl. apply app_nil_r. Qed.

Lemma nows_sep_space : nows (py " ") = [].
Proof. reflexivity. Qed.

Lemma nows_sep_nl : nows [nl] = [].
Proof. reflexivity. Qed.

Lemma nows_nil : nows [] = [].
Proof. reflexivity. Qed.

(** Both sides are concatenations of contents: normalise and compare. *)
Ltac content_norm :=
  rewrite ?contents_snoc, ?contents_app, ?contents_single, ?nows_app,
    ?nows_strip, ?nows_sep_space, ?nows_sep_nl, ?nows_nil;
  rewrite ?app_nil_r; cbn [app]; rewrite <- ?app_assoc; cbn [app];
  try reflexivity.

(** *** The sentence splitter keeps the content *)

Lemma split_from_contents (s : str) :
  forall skipping cur, contents (split_from skipping cur s) = nows cur ++ nows s.
Proof.
  induction s as [|c r IH]; intros skipping cur.
  - simpl. unfold contents. simpl. reflexivity.
  - simpl split_from.
    destruct (skipping && isspace c) eqn:Hs.
    + apply andb_true_iff in Hs. destruct Hs as [_ Hc].
      now rewrite IH, (nows_space_cons c r Hc).
    + destruct (is_terminal c && head_is_space r).
      * rewrite !contents_cons, IH, (nows_cons c r). reflexivity.
      * rewrite IH, nows_app, <- app_assoc, (nows_cons c r). reflexivity.
Qed.

Lemma recombine_contents (parts : list str) :
  contents (recombine parts) = contents parts.
Proof.
  enough (H : contents (recombine parts) = contents parts
              /\ forall p, contents (recombine (p :: parts)) = contents (p :: parts))
    by apply H.
  induction parts as [|q rest [IH1 IH2]].
  - split; [reflexivity|]. intros p. simpl.
    destruct (truthy (strip p)) eqn:Hp; unfold contents; simpl.
    + reflexivity.
    + apply falsy_strip_nows in Hp. now rewrite Hp.
  - split; [apply IH2|]. intros p.
    change (recombine (p :: q :: rest))
      with (if contains q (py ".!?") then (p ++ q) :: recombine rest
            else (if truthy (strip p) then [p] else []) ++ recombine (q :: rest)).
    destruct (contains q (py ".!?")).
    + rewrite !contents_cons, IH1, nows_app, <- app_assoc. reflexivity.
    + rewrite contents_app, IH2, (contents_cons p).  f_equal.
      destruct (truthy (strip p)) eqn:Hp.
      * rewrite contents_cons. apply app_nil_r.
      * apply falsy_strip_nows in Hp. now rewrite Hp.
Qed.

Lemma sentences_contents (text : str) : contents (sentences_of text) = nows text.
Proof.
  unfold sentences_of. rewrite recombine_contents.
  unfold re_split_sentence. now rewrite split_from_contents.
Qed.

Lemma splitter_step_content (max_words : Z) st sentence :
  splitter_content (SplitLongText.step max_words st sentence)
  = splitter_content st ++ nows sentence.
Proof.
  unfold SplitLongText.step, splitter_content.
  destruct st as [segs cur cnt].
  cbn [SplitLongText.segments SplitLongText.current_segment
       SplitLongText.current_word_count].
  destruct (truthy (strip sentence)) eqn:Hs; cbn [negb].
  - destruct (word_count (strip sentence) >? max_words)%Z;
      [|destruct (cnt + word_count (strip sentence) >? max_words)%Z];
      destruct cur as [|c cur'];
      cbn [truthy SplitLongText.segments SplitLongText.current_segment];
      content_norm.
  - apply falsy_strip_nows in Hs. rewrite Hs. content_norm.
Qed.

Lemma splitter_finish_content st :
  contents (SplitLongText.finish st) = splitter_content st.
Proof.
  unfold SplitLongText.finish, splitter_content.
  destruct (truthy (strip (SplitLongText.current_segment st))) eqn:Hs.
  - content_norm.
  - apply falsy_strip_nows in Hs. rewrite Hs. content_norm.
Qed.

Lemma split_long_text_contents (text : str) (max_words : Z) :
  contents (split_long_text text max_words) = nows text.
Proof.
  unfold split_long_text. rewrite splitter_finish_content.
  rewrite (fold_content _ _ _ _ nows (splitter_step_content max_words)).
  apply sentences_contents.
Qed.

(** *** The block grouper keeps the content *)

Lemma grouper_step_content st line :
  grouper_content (Grouper.step st line) = grouper_content st ++ nows line.
Proof.
  unfold Grouper.step, grouper_content.
  destruct st as [blocks cur]. cbn [Grouper.blocks Grouper.current_block].
  destruct (truthy (strip line)) eqn:Hs; cbn [negb].
  - destruct (startswith (py "#") (strip line)).
    + destruct cur as [|l cur']; cbn [truthy Grouper.blocks Grouper.current_block];
        rewrite ?contents_snoc, ?nows_join_nl; content_norm.
    + destruct (is_bullet (strip line)).
      * destruct (Grouper.last_is_plain cur);
          cbn [Grouper.blocks Grouper.current_block];
          rewrite ?contents_snoc, ?nows_join_nl; content_norm.
      * cbn [Grouper.blocks Grouper.current_block]. content_norm.
  - apply falsy_strip_nows in Hs. rewrite Hs.
    destruct cur as [|l cur']; cbn [truthy Grouper.blocks Grouper.current_block];
      rewrite ?contents_snoc, ?nows_join_nl; content_norm.
Qed.

Lemma grouper_finish_content st :
  contents (Grouper.finish st) = grouper_content st.
Proof.
  unfold Grouper.finish, grouper_content.
  destruct (Grouper.current_block st) as [|l cur']; cbn [truthy].
  - content_norm.
  - rewrite contents_snoc, nows_join_nl. reflexivity.
Qed.

Lemma group_blocks_contents (text : str) :
  contents (group_blocks text) = nows text.
Proof.
  unfold group_blocks. rewrite grouper_finish_content.
  rewrite (fold_content _ _ _ _ nows grouper_step_content).
  rewrite nows_split_on_nl. apply nows_strip.
Qed.

(** *** The segment packer keeps the content *)

Lemma packer_step_content (max_words : Z) st line :
  packer_content (Packer.step max_words st line)
  = packer_content st ++ nows line.
Proof.
  unfold Packer.step, packer_content.
  destruct st as [segs cur cnt].
  cbn [Packer.segments Packer.current_segment Packer.current_words].
  destruct (word_count line >? max_words)%Z;
    [|destruct (cnt + word_count line >? max_words)%Z];
    destruct cur as [|c cur'];
    cbn [truthy Packer.segments Packer.current_segment];
    rewrite ?contents_app, ?contents_snoc, ?split_long_text_contents;
    content_norm.
Qed.

Lemma packer_finish_content st :
  contents (Packer.finish st) = packer_content st.
Proof.
  unfold Packer.finish, packer_content.
  destruct (truthy (strip (Packer.current_segment st))) eqn:Hs.
  - content_norm.
  - apply falsy_strip_nows in Hs. rewrite Hs. content_norm.
Qed.

Lemma pack_block_contents (max_words : Z) (segments : list str) (block : str) :
  contents (Packer.pack_block max_words segments block)
  = contents segments ++ nows block.
Proof.
  unfold Packer.pack_block.
  destruct (truthy (strip block)) eqn:Hs; cbn [negb].
  - destruct (word_count (strip block) <=? max_words)%Z; [content_norm|].
    destruct (existsb _ _).
    + rewrite packer_finish_content.
      rewrite (fold_content _ _ _ _ nows (packer_step_content max_words)).
      unfold packer_content. cbn [Packer.segments Packer.current_segment].
      rewrite nows_split_on_nl. content_norm.
    + rewrite contents_app, split_long_text_contents. content_norm.
  - apply falsy_strip_nows in Hs. rewrite Hs. content_norm.
Qed.

Lemma pack_blocks_contents (blocks : list str) (max_words : Z) :
  contents (pack_blocks blocks max_words) = contents blocks.
Proof.
  unfold pack_blocks.
  rewrite (fold_content _ _ _ contents nows (pack_block_contents max_words)).
  reflexivity.
Qed.

(** *** The relocator keeps the content *)

Lemma relocate_step_contents (final_segments : list str) (segment : str) :
  contents (relocate_step final_segments segment)
  = contents final_segments ++ nows segment.
Proof.
  unfold relocate_step.
  destruct (re_search segment) as [m|]; [|content_norm].
  assert (Hs : nows segment
               = nows (firstn (m_end m) segment) ++ nows (skipn (m_end m) segment))
    by now rewrite <- nows_app, firstn_skipn.
  rewrite Hs.
  destruct (truthy (strip (firstn (m_end m) segment))) eqn:H1;
    destruct (truthy (strip (skipn (m_end m) segment))) eqn:H2;
    try (apply falsy_strip_nows in H1); try (apply falsy_strip_nows in H2);
    content_norm; rewrite ?H1, ?H2; content_norm.
Qed.

Lemma relocate_contents (segments : list str) :
  contents (relocate segments) = contents segments.
Proof.
  unfold relocate.
  rewrite (fold_content _ _ _ contents nows relocate_step_contents).
  reflexivity.
Qed.

Lemma split_markdown_contents (text : str) (max_words : Z) :
  contents (split_markdown_for_video_with_image_split text max_words)
  = nows text.
Proof.
  unfold split_markdown_for_video_with_image_split.
  now rewrite relocate_contents, pack_blocks_contents, group_blocks_contents.
Qed.

(** ** Image markers *)

Lemma strip_prefix_spec (p s r : str) :
  strip_prefix p s = Some r <-> s = p ++ r.
Proof.
  revert s. induction p as [|a p IH]; intros s; simpl.
  - split; congruence.
  - destruct s as [|c s']; [split; discriminate|].
    destruct (a =? c)%N eqn:Hac.
    + apply N.eqb_eq in Hac. subst c. rewrite IH. split; congruence.
    + apply N.eqb_neq in Hac. split; [discriminate|]. congruence.
Qed.

Lemma take_drop_while (f : char -> bool) (s : str) :
  take_while f s ++ drop_while f s = s.
Proof.
  induction s as [|c r IH]; [reflexivity|].
  simpl. destruct (f c); simpl; congruence.
Qed.

Lemma take_while_all (f : char -> bool) (s : str) :
  Forall (fun c => f c = true) (take_while f s).
Proof.
  induction s as [|c r IH]; simpl; [constructor|].
  destruct (f c) eqn:Hc; constructor; assumption.
Qed.

Lemma take_while_app (f : char -> bool) (ds rest : str) :
  Forall (fun c => f c = true) ds -> head_stops f rest ->
  take_while f (ds ++ rest) = ds /\ drop_while f (ds ++ rest) = rest.
Proof.
  intros Hds Hrest. induction Hds as [|c ds Hc _ IH]; simpl.
  - destruct rest as [|d rest']; [auto|].
    simpl in *. now rewrite Hrest.
  - rewrite Hc. destruct IH as [IH1 IH2]. now rewrite IH1, IH2.
Qed.

Lemma marker_length (ds : str) : length (marker ds) = 5 + length ds + 2.
Proof. unfold marker. rewrite !length_app. reflexivity. Qed.

Lemma match_marker_sound (s ds : str) (len : nat) :
  match_marker s = Some (ds, len) ->
  digits ds /\ len = length (marker ds) /\ exists rest, s = marker ds ++ rest.
Proof.
  unfold match_marker.
  destruct (strip_prefix (py "![]($") s) as [r|] eqn:Hp; [|discriminate].
  apply strip_prefix_spec in Hp.
  pose proof (take_while_all isdecimal r) as Hall.
  pose proof (take_drop_while isdecimal r) as Htd.
  destruct (take_while isdecimal r) as [|d ds'] eqn:Ht; [discriminate|].
  destruct (strip_prefix (py "$)") (drop_while isdecimal r)) as [rest|] eqn:Hq;
    [|discriminate].
  apply strip_prefix_spec in Hq.
  intros H. injection H as <- <-.
  split; [split; [discriminate|assumption]|].
  split; [now rewrite marker_length|].
  exists rest. unfold marker. rewrite Hp, <- Htd, Hq, <- !app_assoc. reflexivity.
Qed.

Lemma match_marker_complete (ds rest : str) :
  digits ds -> match_marker (marker ds ++ rest) = Some (ds, length (marker ds)).
Proof.
  intros [Hne Hall]. unfold match_marker, marker.
  rewrite <- !app_assoc.
  assert (Hp : strip_prefix (py "![]($") (py "![]($" ++ ds ++ py "$)" ++ rest)
               = Some (ds ++ py "$)" ++ rest))
    by now apply strip_prefix_spec.
  rewrite Hp.
  destruct (take_while_app isdecimal ds (py "$)" ++ rest) Hall) as [H1 H2];
    [reflexivity|].
  rewrite H1, H2.
  assert (Hq : strip_prefix (py "$)") (py "$)" ++ rest) = Some rest)
    by now apply strip_prefix_spec.
  rewrite Hq. destruct ds as [|d ds']; [congruence|].
  rewrite !length_app. reflexivity.
Qed.

Lemma match_marker_iff (s : str) :
  marker_at s 0 <-> exists ds len, match_marker s = Some (ds, len).
Proof.
  split.
  - intros [ds [rest [Hd Hs]]]. simpl in Hs. subst s.
    exists ds, (length (marker ds)). now apply match_marker_complete.
  - intros [ds [len H]]. apply match_marker_sound in H.
    destruct H as [Hd [_ [rest Hs]]]. now exists ds, rest.
Qed.

Lemma marker_at_match (s : str) (p : nat) :
  marker_at s p <-> exists ds len, match_marker (skipn p s) = Some (ds, len).
Proof. apply (match_marker_iff (skipn p s)). Qed.

Lemma search_from_some (s : str) :
  forall i m, search_from i s = Some m ->
  exists k len,
    m_start m = i + k /\ m_end m = i + k + len
    /\ match_marker (skipn k s) = Some (group1 m, len)
    /\ forall j, j < k -> match_marker (skipn j s) = None.
Proof.
  induction s as [|c r IH]; intros i m H.
  - simpl in H. discriminate.
  - cbn [search_from] in H.
    destruct (match_marker (c :: r)) as [[ds len]|] eqn:Hm.
    + injection H as <-. exists 0, len. cbn [m_start m_end group1 skipn].
      split; [lia|split; [lia|split; [assumption|intros j Hj; lia]]].
    + apply IH in H. destruct H as [k [len [H1 [H2 [H3 H4]]]]].
      exists (S k), len.
      split; [lia|split; [lia|split; [assumption|]]].
      intros [|j] Hj; [assumption|]. apply H4. lia.
Qed.

Lemma search_from_none (s : str) :
  forall i, search_from i s = None -> forall j, match_marker (skipn j s) = None.
Proof.
  induction s as [|c r IH]; intros i H j.
  - now destruct j.
  - cbn [search_from] in H.
    destruct (match_marker (c :: r)) as [[ds len]|] eqn:Hm; [discriminate|].
    destruct j as [|j]; [assumption|]. simpl. now apply (IH (S i)).
Qed.

Lemma re_search_none_iff (s : str) : re_search s = None <-> no_marker s.
Proof.
  split.
  - intros H p Hp. apply marker_at_match in Hp. destruct Hp as [ds [len Hp]].
    pose proof (search_from_none s 0 H p). congruence.
  - intros H. destruct (re_search s) as [m|] eqn:Hs; [|reflexivity].
    apply search_from_some in Hs. destruct Hs as [k [len [_ [_ [Hm _]]]]].
    exfalso. apply (H k). apply marker_at_match. eauto.
Qed.

Lemma skipn_app_exact (a b : str) (n : nat) :
  n = length a -> skipn n (a ++ b) = b.
Proof. intros ->. now rewrite skipn_app, skipn_all, Nat.sub_diag. Qed.

Lemma firstn_app_exact (a b : str) (n : nat) :
  n = length a -> firstn n (a ++ b) = a.
Proof.
  intros ->. rewrite firstn_app, firstn_all, Nat.sub_diag. simpl.
  apply app_nil_r.
Qed.

(** The match that [re.search] returns is the first marker of the string. *)
Lemma re_search_first (s : str) (m : re_match) :
  re_search s = Some m ->
  m_end m = m_start m + length (marker (group1 m))
  /\ first_marker s (firstn (m_start m) s) (group1 m) (skipn (m_end m) s)
  /\ firstn (m_end m) s = firstn (m_start m) s ++ marker (group1 m).
Proof.
  intros H. apply search_from_some in H.
  destruct H as [k [len [H1 [H2 [H3 H4]]]]]. simpl in H1, H2.
  pose proof (match_marker_sound _ _ _ H3) as [Hd [Hlen [rest Hrest]]].
  assert (Hk : k <= length s).
  { destruct (Nat.le_gt_cases k (length s)) as [Hle|Hgt]; [assumption|].
    rewrite skipn_all2 in Hrest by lia. discriminate. }
  assert (Hb : exists b, s = b ++ marker (group1 m) ++ rest /\ length b = k).
  { exists (firstn k s). split; [now rewrite <- Hrest, firstn_skipn|].
    rewrite length_firstn. lia. }
  destruct Hb as [b [Hs Hfk]].
  assert (Hf1 : firstn k s = b) by (rewrite Hs; now apply firstn_app_exact).
  assert (Hs2 : skipn (k + len) s = rest).
  { rewrite Hs, app_assoc. apply skipn_app_exact. rewrite length_app. lia. }
  assert (Hf2 : firstn (k + len) s = b ++ marker (group1 m)).
  { rewrite Hs, app_assoc. apply firstn_app_exact. rewrite length_app. lia. }
  rewrite H1, H2, Hf1, Hs2, Hf2.
  split; [lia|]. split; [|reflexivity].
  split; [assumption|]. split; [assumption|].
  intros p Hp Hat. rewrite Hfk in Hp. apply marker_at_match in Hat.
  destruct Hat as [ds' [len' Hat]]. rewrite (H4 p Hp) in Hat. discriminate.
Qed.

Lemma first_marker_search (s before ds after : str) :
  first_marker s before ds after ->
  re_search s
  = Some (mk_match (length before) (length before + length (marker ds)) ds).
Proof.
  intros [Hs [Hd Hfirst]].
  assert (Hhere : match_marker (skipn (length before) s)
                  = Some (ds, length (marker ds))).
  { rewrite Hs, skipn_app_exact by reflexivity.
    now apply match_marker_complete. }
  destruct (re_search s) as [m|] eqn:Hsearch.
  - pose proof (search_from_some s 0 m Hsearch) as [k [len [H1 [H2 [H3 H4]]]]].
    simpl in H1, H2.
    assert (Hk : k = length before).
    { destruct (Nat.lt_trichotomy k (length before)) as [Hlt|[Heq|Hgt]];
        [|assumption|].
      - exfalso. apply (Hfirst k Hlt). apply marker_at_match. eauto.
      - rewrite (H4 _ Hgt) in Hhere. discriminate. }
    rewrite Hk in H1, H2, H3. rewrite Hhere in H3. injection H3 as Hg Hl.
    destruct m as [st en g]. cbn [m_start m_end group1] in H1, H2, Hg.
    now rewrite H1, H2, <- Hl, <- Hg.
  - pose proof (search_from_none s 0 Hsearch (length before)). congruence.
Qed.

(** ** Loops that only append *)

Section FoldAppend.

Variables (X Y : Type).
Variable step : list Y -> X -> list Y.
Hypothesis step_app : forall acc x, step acc x = acc ++ step [] x.

Lemma fold_append (l : list X) (acc : list Y) :
  fold_left step l acc = acc ++ flat_map (step []) l.
Proof.
  revert acc. induction l as [|x r IH]; intros acc; simpl.
  - now rewrite app_nil_r.
  - now rewrite IH, step_app, <- app_assoc.
Qed.

End FoldAppend.

Lemma relocate_step_app (acc : list str) (segment : str) :
  relocate_step acc segment = acc ++ relocate_one segment.
Proof.
  unfold relocate_one, relocate_step.
  destruct (re_search segment) as [m|]; [|reflexivity].
  destruct (truthy (strip (firstn (m_end m) segment)));
    destruct (truthy (strip (skipn (m_end m) segment)));
    simpl; rewrite ?app_nil_r, <- ?app_assoc; reflexivity.
Qed.

Lemma relocate_flat_map (segments : list str) :
  relocate segments = flat_map relocate_one segments.
Proof.
  unfold relocate. now rewrite (fold_append _ _ _ relocate_step_app).
Qed.

Lemma relocate_splice (l1 l2 : list str) (segment : str) :
  relocate (l1 ++ segment :: l2)
  = relocate l1 ++ relocate_one segment ++ relocate l2.
Proof. rewrite !relocate_flat_map, flat_map_app. reflexivity. Qed.

(** ** Counting words *)

Lemma starts_true_false (s : str) :
  starts true s = (if head_is_space s then 0 else if truthy s then 1 else 0)
                  + starts false s.
Proof.
  destruct s as [|c r]; [reflexivity|].
  simpl. destruct (isspace c); reflexivity.
Qed.

Lemma starts_bounds (s : str) : starts false s <= starts true s <= S (starts false s).
Proof.
  rewrite starts_true_false.
  destruct (head_is_space s); [lia|]. destruct (truthy s); lia.
Qed.

Lemma split_ws_length (s : str) : length (split_ws s) = starts true s.
Proof.
  induction s as [|c r IH]; [reflexivity|].
  cbn [split_ws starts]. destruct (isspace c) eqn:Hc; [assumption|].
  destruct r as [|d r']; [reflexivity|].
  rewrite starts_true_false in IH. cbn [head_is_space truthy] in IH.
  destruct (isspace d) eqn:Hd.
  - cbn [length]. rewrite IH. reflexivity.
  - destruct (split_ws (d :: r')) as [|w ws]; cbn [length] in *; lia.
Qed.

Lemma word_count_starts (s : str) : word_count s = Z.of_nat (starts true s).
Proof. unfold word_count. now rewrite split_ws_length. Qed.

Lemma starts_app (x y : str) :
  forall b, starts b (x ++ y) = starts b x + starts (ends_space b x) y.
Proof.
  unfold ends_space.
  induction x as [|c r IH]; intros b; [reflexivity|].
  cbn [app starts fold_left]. destruct (isspace c) eqn:Hc; rewrite IH; lia.
Qed.

Lemma ends_space_snoc (b : bool) (x : str) (c : char) :
  ends_space b (x ++ [c]) = isspace c.
Proof. unfold ends_space. now rewrite fold_left_app. Qed.

(** A string that ends inside a word has started a word. *)
Lemma ends_nonspace_starts (x : str) :
  ends_space true x = false -> 1 <= starts true x.
Proof.
  unfold ends_space. induction x as [|c r IH]; [discriminate|].
  cbn [fold_left starts]. destruct (isspace c); [assumption|lia].
Qed.

Lemma starts_sep (a b : str) (c : char) :
  isspace c = true ->
  starts true (a ++ [c] ++ b) = starts true a + starts true b.
Proof.
  intros Hc. rewrite app_assoc, starts_app, ends_space_snoc, Hc.
  rewrite starts_app. cbn [starts]. rewrite Hc. cbn [starts]. lia.
Qed.

Lemma starts_prefix_le (x y : str) (b : bool) : starts b x <= starts b (x ++ y).
Proof. rewrite starts_app. lia. Qed.

Lemma starts_suffix_le (x y : str) : starts true y <= starts true (x ++ y).
Proof.
  rewrite starts_app. destruct (ends_space true x) eqn:He; [lia|].
  apply ends_nonspace_starts in He. pose proof (starts_bounds y). lia.
Qed.

Lemma starts_lstrip (s : str) : starts true (lstrip s) = starts true s.
Proof.
  induction s as [|c r IH]; [reflexivity|].
  cbn [lstrip]. destruct (isspace c) eqn:Hc; [|reflexivity].
  cbn [starts]. now rewrite Hc.
Qed.

(** Trailing whitespace: [lstrip (rev s)] is the reverse of a prefix of [s]
    that is followed by whitespace only. *)
Lemma rstrip_decompose (s : str) :
  exists ws, s = rstrip s ++ ws /\ Forall (fun c => isspace c = true) ws.
Proof.
  unfold rstrip.
  assert (H : forall t, exists ws, t = rev ws ++ lstrip t
                                   /\ Forall (fun c => isspace c = true) ws).
  { induction t as [|c r [ws [Ht Hws]]].
    - exists []. split; [reflexivity|constructor].
    - cbn [lstrip]. destruct (isspace c) eqn:Hc.
      + exists (ws ++ [c]). split.
        * rewrite rev_app_distr. simpl. now rewrite <- Ht.
        * apply Forall_app. split; [assumption|]. now constructor.
      + exists []. split; [reflexivity|constructor]. }
  destruct (H (rev s)) as [ws [Ht Hws]]. exists ws. split; [|assumption].
  apply (f_equal (@rev char)) in Ht.
  now rewrite rev_involutive, rev_app_distr, rev_involutive in Ht.
Qed.

Lemma starts_spaces (ws : str) (b : bool) :
  Forall (fun c => isspace c = true) ws -> starts b ws = 0.
Proof.
  intros H. revert b. induction H as [|c r Hc _ IH]; intros b; [reflexivity|].
  cbn [starts]. rewrite Hc. apply IH.
Qed.

Lemma starts_rstrip (s : str) : starts true (rstrip s) = starts true s.
Proof.
  destruct (rstrip_decompose s) as [ws [Hs Hws]].
  rewrite Hs at 2. rewrite starts_app, (starts_spaces _ _ Hws). lia.
Qed.

Lemma word_count_strip (s : str) : word_count (strip s) = word_count s.
Proof.
  rewrite !word_count_starts. unfold strip.
  now rewrite starts_rstrip, starts_lstrip.
Qed.

Lemma word_count_sep (a b : str) (c : char) :
  isspace c = true ->
  word_count (a ++ [c] ++ b) = (word_count a + word_count b)%Z.
Proof.
  intros Hc. rewrite !word_count_starts, (starts_sep a b c Hc). lia.
Qed.

Lemma word_count_firstn (n : nat) (s : str) :
  (word_count (firstn n s) <= word_count s)%Z.
Proof.
  rewrite !word_count_starts. rewrite <- (firstn_skipn n s) at 2.
  pose proof (starts_prefix_le (firstn n s) (skipn n s) true). lia.
Qed.

Lemma word_count_skipn (n : nat) (s : str) :
  (word_count (skipn n s) <= word_count s)%Z.
Proof.
  rewrite !word_count_starts. rewrite <- (firstn_skipn n s) at 2.
  pose proof (starts_suffix_le (firstn n s) (skipn n s)). lia.
Qed.

(** [re.sub(r'\s+', ' ', s)] keeps the words. *)
Lemma starts_sub_ws (s : str) :
  forall in_run b, (in_run = true -> b = true) ->
  starts b (sub_ws_from in_run s) = starts b s.
Proof.
  induction s as [|c r IH]; intros in_run b Hb; [reflexivity|].
  cbn [sub_ws_from starts]. destruct (isspace c) eqn:Hc.
  - destruct in_run.
    + rewrite (Hb eq_refl). now apply IH.
    + cbn [starts]. rewrite isspace_space. now apply IH.
  - cbn [starts]. rewrite Hc. f_equal. apply IH. discriminate.
Qed.

Lemma word_count_sub_ws (s : str) : word_count (re_sub_ws s) = word_count s.
Proof.
  rewrite !word_count_starts. unfold re_sub_ws.
  now rewrite starts_sub_ws by discriminate.
Qed.

(** Deleting markers does not add words: a marker has no whitespace. *)
Lemma marker_nonspace (ds : str) :
  digits ds -> Forall (fun c => isspace c = false) (marker ds).
Proof.
  intros [_ Hall]. unfold marker.
  apply Forall_app. split; [repeat constructor|].
  apply Forall_app. split; [|repeat constructor].
  eapply Forall_impl; [|exact Hall]. apply decimal_not_space.
Qed.

Lemma match_marker_nonspace (c : char) (r ds : str) (len : nat) :
  match_marker (c :: r) = Some (ds, len) ->
  isspace c = false /\ Forall (fun c => isspace c = false) (firstn (pred len) r).
Proof.
  intros H. apply match_marker_sound in H. destruct H as [Hd [Hlen [rest Hs]]].
  pose proof (marker_nonspace ds Hd) as Hns.
  destruct (marker ds) as [|c' mk] eqn:Hmk; [discriminate|].
  injection Hs as -> ->. inversion Hns as [|? ? Hc Hmkns]; subst.
  split; [assumption|]. cbn [length pred].
  now rewrite firstn_app_exact by reflexivity.
Qed.

Lemma starts_sub_marker (s : str) :
  forall skip b,
    Forall (fun c => isspace c = false) (firstn skip s) ->
    starts b (sub_from skip s) <= starts b s.
Proof.
  induction s as [|c r IH]; intros skip b Hns; [destruct skip; apply Nat.le_refl|].
  assert (Hdrop : forall k, isspace c = false ->
            Forall (fun c => isspace c = false) (firstn k r) ->
            starts b (sub_from k r) <= starts b (c :: r)).
  { intros k Hc Hk. specialize (IH k b Hk). cbn [starts]. rewrite Hc.
    pose proof (starts_bounds r). destruct b; lia. }
  destruct skip as [|k]; cbn [sub_from].
  - destruct (match_marker (c :: r)) as [[ds len]|] eqn:Hm.
    + apply match_marker_nonspace in Hm. destruct Hm as [Hc Hr]. now apply Hdrop.
    + cbn [starts]. destruct (isspace c).
      * apply IH. constructor.
      * apply Nat.add_le_mono_l. apply IH. constructor.
  - cbn [firstn] in Hns. inversion Hns; subst. now apply Hdrop.
Qed.

Lemma word_count_sub_marker (s : str) :
  (word_count (re_sub_marker s) <= word_count s)%Z.
Proof.
  rewrite !word_count_starts. unfold re_sub_marker.
  pose proof (starts_sub_marker s 0 true (Forall_nil _)). lia.
Qed.

(** ** Loops that keep an invariant *)

Section FoldInvariant.

Variables (S X : Type).
Variable step : S -> X -> S.
Variable Inv : S -> Prop.

Lemma fold_invariant (l : list X) :
  (forall st x, In x l -> Inv st -> Inv (step st x)) ->
  forall st, Inv st -> Inv (fold_left step l st).
Proof.
  induction l as [|x r IH]; intros Hstep st Hst; [assumption|].
  simpl. apply IH.
  - intros st' y Hy. apply Hstep. now right.
  - apply Hstep; [now left|assumption].
Qed.

End FoldInvariant.

(** ** The word budget *)

Lemma Forall_snoc {A : Type} (P : A -> Prop) (l : list A) (x : A) :
  Forall P l -> P x -> Forall P (l ++ [x]).
Proof. intros Hl Hx. apply Forall_app. split; [assumption|now constructor]. Qed.

Lemma splitter_step_inv (max_words : Z) (unit : str) st sentence :
  In sentence (sentences_of unit) ->
  splitter_inv max_words unit st ->
  splitter_inv max_words unit (SplitLongText.step max_words st sentence).
Proof.
  intros Hin [Hsegs [Hwc Hle]]. unfold SplitLongText.step, splitter_inv.
  destruct st as [segs cur cnt].
  cbn [SplitLongText.segments SplitLongText.current_segment
       SplitLongText.current_word_count] in *.
  destruct (truthy (strip sentence)) eqn:Hs; cbn [negb];
    [|now repeat split].
  assert (Hflush : cur <> [] -> chunk_ok max_words unit (strip cur)).
  { intros Hne. left. rewrite word_count_strip, Hwc. now apply Hle. }
  destruct (word_count (strip sentence) >? max_words)%Z eqn:Hbig.
  - apply Z.gtb_lt in Hbig.
    assert (Hsent : chunk_ok max_words unit (strip sentence)).
    { right. exists sentence. repeat split; [assumption|lia]. }
    destruct cur as [|c cur'];
      cbn [truthy SplitLongText.segments SplitLongText.current_segment
           SplitLongText.current_word_count].
    + split; [now apply Forall_snoc|]. split; [assumption|now intros []].
    + split; [apply Forall_snoc; [apply Forall_snoc|]; try assumption;
              now apply Hflush|].
      split; [reflexivity|now intros []].
  - rewrite Z.gtb_ltb in Hbig. apply Z.ltb_ge in Hbig.
    destruct (cnt + word_count (strip sentence) >? max_words)%Z eqn:Hsum;
      cbn [SplitLongText.segments SplitLongText.current_segment
           SplitLongText.current_word_count].
    + split; [|split; [reflexivity|intros _; assumption]].
      destruct cur as [|c cur']; cbn [truthy]; [assumption|].
      apply Forall_snoc; [assumption|now apply Hflush].
    + rewrite Z.gtb_ltb in Hsum. apply Z.ltb_ge in Hsum.
      split; [assumption|]. split; [|intros _; assumption].
      destruct cur as [|c cur']; cbn [truthy].
      * rewrite <- Hwc. reflexivity.
      * change (py " ") with [space].
        now rewrite (word_count_sep _ _ space isspace_space), Hwc.
Qed.

Lemma split_long_text_chunks (text : str) (max_words : Z) :
  Forall (chunk_ok max_words text) (split_long_text text max_words).
Proof.
  unfold split_long_text.
  assert (Hinv : splitter_inv max_words text
                   (fold_left (SplitLongText.step max_words) (sentences_of text)
                      SplitLongText.init)).
  { apply fold_invariant.
    - intros st x Hx. now apply splitter_step_inv.
    - split; [constructor|]. split; [reflexivity|]. now intros []. }
  destruct Hinv as [Hsegs [Hwc Hle]]. unfold SplitLongText.finish.
  destruct (truthy (strip (SplitLongText.current_segment _))) eqn:Hs;
    [|assumption].
  apply Forall_snoc; [assumption|]. left.
  rewrite word_count_strip, Hwc. apply Hle.
  intros Hnil. rewrite Hnil in Hs. discriminate.
Qed.

Lemma chunk_segment_ok (max_words : Z) (blocks : list str) (block unit : str) :
  In block blocks -> In unit (splitter_inputs max_words block) ->
  forall l, Forall (chunk_ok max_words unit) l ->
            Forall (segment_ok max_words blocks) l.
Proof.
  intros Hb Hu l Hl. eapply Forall_impl; [|exact Hl].
  intros p [Hp|Hp]; [now left|]. right. now exists block, unit.
Qed.

Lemma packer_step_inv (max_words : Z) (blocks : list str) (block : str) st line :
  In block blocks ->
  ((word_count line >? max_words)%Z = true ->
   In line (splitter_inputs max_words block)) ->
  packer_inv max_words blocks st ->
  packer_inv max_words blocks (Packer.step max_words st line).
Proof.
  intros Hb Hline [Hsegs [Hwc Hle]]. unfold Packer.step, packer_inv.
  destruct st as [segs cur cnt].
  cbn [Packer.segments Packer.current_segment Packer.current_words] in *.
  assert (Hflush : cur <> [] -> segment_ok max_words blocks (strip cur)).
  { intros Hne. left. rewrite word_count_strip, Hwc. now apply Hle. }
  destruct (word_count line >? max_words)%Z eqn:Hbig.
  - pose proof (chunk_segment_ok max_words blocks block line Hb (Hline eq_refl)
                  _ (split_long_text_chunks line max_words)) as Hsplit.
    destruct cur as [|c cur'];
      cbn [truthy Packer.segments Packer.current_segment Packer.current_words].
    + split; [apply Forall_app; now split|].
      split; [assumption|now intros []].
    + split; [apply Forall_app; split; [|assumption];
              apply Forall_snoc; [assumption|now apply Hflush]|].
      split; [reflexivity|now intros []].
  - rewrite Z.gtb_ltb in Hbig. apply Z.ltb_ge in Hbig.
    destruct (cnt + word_count line >? max_words)%Z eqn:Hsum;
      cbn [Packer.segments Packer.current_segment Packer.current_words].
    + split; [|split; [reflexivity|intros _; assumption]].
      destruct cur as [|c cur']; cbn [truthy]; [assumption|].
      apply Forall_snoc; [assumption|now apply Hflush].
    + rewrite Z.gtb_ltb in Hsum. apply Z.ltb_ge in Hsum.
      split; [assumption|]. split; [|intros _; assumption].
      destruct cur as [|c cur']; cbn [truthy].
      * rewrite <- Hwc. reflexivity.
      * now rewrite (word_count_sep _ _ nl isspace_nl), Hwc.
Qed.

Lemma pack_block_ok (max_words : Z) (blocks segments : list str) (block : str) :
  In block blocks ->
  Forall (segment_ok max_words blocks) segments ->
  Forall (segment_ok max_words blocks)
    (Packer.pack_block max_words segments block).
Proof.
  intros Hb Hsegs.
  pose proof (eq_refl (splitter_inputs max_words block)) as Hin.
  unfold splitter_inputs at 2 in Hin. unfold Packer.pack_block.
  destruct (truthy (strip block)) eqn:Hs; cbn [negb] in *; [|assumption].
  destruct (word_count (strip block) <=? max_words)%Z eqn:Hwc.
  - apply Forall_snoc; [assumption|]. left. now apply Z.leb_le.
  - destruct (existsb _ (split_on nl (strip block))) eqn:Hbul.
    + set (st := fold_left _ _ _).
      assert (Hinv : packer_inv max_words blocks st).
      { apply fold_invariant.
        - intros st' line Hl. apply (packer_step_inv max_words blocks block);
            [assumption|].
          intros Hbig. rewrite Hin. apply filter_In. now split.
        - split; [assumption|]. split; [reflexivity|now intros []]. }
      destruct Hinv as [Hsegs' [Hwc' Hle']]. unfold Packer.finish.
      destruct (truthy (strip (Packer.current_segment st))) eqn:Hcur;
        [|assumption].
      apply Forall_snoc; [assumption|]. left.
      rewrite word_count_strip, Hwc'. apply Hle'.
      intros Hnil. rewrite Hnil in Hcur. discriminate.
    + apply Forall_app. split; [assumption|].
      apply (chunk_segment_ok max_words blocks block (strip block) Hb);
        [rewrite Hin; now left|].
      apply split_long_text_chunks.
Qed.

Lemma pack_blocks_ok (blocks : list str) (max_words : Z) :
  Forall (segment_ok max_words blocks) (pack_blocks blocks max_words).
Proof.
  unfold pack_blocks.
  apply (fold_invariant _ _ (Packer.pack_block max_words)
           (Forall (segment_ok max_words blocks))).
  - intros st block Hb. now apply pack_block_ok.
  - constructor.
Qed.

(** *** Through the relocator *)

Lemma relocate_one_cases (p q : str) :
  In q (relocate_one p) ->
  (re_search p = None /\ q = p)
  \/ exists m, re_search p = Some m
               /\ (q = strip (firstn (m_end m) p) \/ q = strip (skipn (m_end m) p)).
Proof.
  unfold relocate_one, relocate_step.
  destruct (re_search p) as [m|].
  - intros Hq. right. exists m. split; [reflexivity|].
    destruct (truthy (strip (firstn (m_end m) p)));
      destruct (truthy (strip (skipn (m_end m) p)));
      simpl in Hq; intuition auto.
  - intros [Hq|[]]. left. auto.
Qed.

Lemma relocate_one_word_count (p q : str) :
  In q (relocate_one p) -> (word_count q <= word_count p)%Z.
Proof.
  intros Hq. apply relocate_one_cases in Hq.
  destruct Hq as [[_ ->]|[m [_ [->| ->]]]]; [lia| |];
    rewrite word_count_strip;
    [apply word_count_firstn|apply word_count_skipn].
Qed.

Lemma relocate_origin (segments : list str) (q : str) :
  In q (relocate segments) <-> exists p, In p segments /\ In q (relocate_one p).
Proof. rewrite relocate_flat_map. apply in_flat_map. Qed.

(** *** Through the classifier *)

Lemma classify_cases (raw : str) (segment : ScriptSegment) :
  classify raw = Ok segment ->
  raw_text segment = raw
  /\ ((re_search raw = None /\ image_index segment = None
       /\ has_image segment = false
       /\ text segment = strip (re_sub_ws (strip raw)))
      \/ exists m n, re_search raw = Some m /\ py_int (group1 m) = Some n
           /\ image_index segment = Some n /\ has_image segment = true
           /\ text segment = strip (re_sub_ws (strip (re_sub_marker raw)))).
Proof.
  unfold classify. destruct (re_search raw) as [m|].
  - unfold int_of_group.
    destruct (py_int (group1 m)) as [n|] eqn:Hn; [|discriminate].
    cbn [bind]. intros H. injection H as <-. cbn. split; [reflexivity|].
    right. exists m, n. auto 6.
  - intros H. injection H as <-. cbn. auto 6.
Qed.

Lemma classify_word_count (raw : str) (segment : ScriptSegment) :
  classify raw = Ok segment -> (word_count (text segment) <= word_count raw)%Z.
Proof.
  intros H. apply classify_cases in H.
  destruct H as [_ [[_ [_ [_ ->]]]|[m [n [_ [_ [_ [_ ->]]]]]]]];
    rewrite word_count_strip, word_count_sub_ws, word_count_strip;
    [lia|apply word_count_sub_marker].
Qed.

Lemma classify_fold_raise (l : list str) (e : string) :
  fold_left classify_step l (Raise e) = Raise e.
Proof. induction l as [|x r IH]; [reflexivity|]. simpl. apply IH. Qed.

(** Every segment of the result was classified from one raw segment. *)
Lemma classify_fold_origin (l : list str) :
  forall acc segments,
    fold_left classify_step l (Ok acc) = Ok segments ->
    forall segment, In segment segments ->
      In segment acc
      \/ (In (raw_text segment) l /\ classify (raw_text segment) = Ok segment
          /\ text segment <> []).
Proof.
  induction l as [|raw r IH]; intros acc segments H segment Hin.
  - simpl in H. injection H as <-. now left.
  - cbn [fold_left] in H. unfold classify_step at 2 in H. cbn [bind] in H.
    destruct (classify raw) as [s|e] eqn:Hc; cbn [bind] in H;
      [|rewrite classify_fold_raise in H; discriminate].
    destruct (IH _ _ H segment Hin) as [Hacc|[Hr [Hcl Ht]]].
    + destruct (truthy (text s)) eqn:Hs; [|now left].
      apply in_app_or in Hacc. destruct Hacc as [Hacc|[<-|[]]]; [now left|].
      right. pose proof (proj1 (classify_cases _ _ Hc)) as Hraw.
      rewrite Hraw. split; [now left|]. split; [assumption|].
      now apply truthy_true_iff.
    + right. split; [now right|]. now split.
Qed.

Lemma get_script_segments_origin (markdown_text : str) (max_words : Z)
    (segments : list ScriptSegment) (segment : ScriptSegment) :
  get_script_segments markdown_text max_words = Ok segments ->
  In segment segments ->
  In (raw_text segment)
     (split_markdown_for_video_with_image_split markdown_text max_words)
  /\ classify (raw_text segment) = Ok segment
  /\ text segment <> [].
Proof.
  unfold get_script_segments. intros H Hin.
  destruct (classify_fold_origin _ _ _ H segment Hin) as [[]|Hres].
  exact Hres.
Qed.

(** ** [int] on the digits of a marker *)

Lemma isdecimal_value (c : char) :
  isdecimal c = true -> exists v, decimal_value c = Some v.
Proof.
  unfold isdecimal. destruct (decimal_value c) as [v|]; [eauto|discriminate].
Qed.

Lemma int_digits_total (ds : str) :
  Forall (fun c => isdecimal c = true) ds ->
  forall acc, (0 <= acc)%Z ->
  exists n, int_digits acc ds = Some n /\ (0 <= n)%Z.
Proof.
  intros H. induction H as [|c r Hc _ IH]; intros acc Hacc.
  - exists acc. now split.
  - cbn [int_digits]. destruct (isdecimal_value c Hc) as [v Hv]. rewrite Hv.
    apply IH. lia.
Qed.

Lemma py_int_digits (ds : str) :
  digits ds -> exists n, py_int ds = Some n /\ (0 <= n)%Z.
Proof.
  intros [Hne Hall]. unfold py_int. destruct ds as [|d ds']; [congruence|].
  apply int_digits_total; [assumption|lia].
Qed.

Lemma re_search_digits (s : str) (m : re_match) :
  re_search s = Some m -> digits (group1 m).
Proof. intros H. apply re_search_first in H. apply H. Qed.




(** ** Lines: [split] and [join] *)

Lemma split_on_no_sep (sep : char) (s : str) :
  Forall (fun l => ~ In sep l) (split_on sep s).
Proof.
  induction s as [|c r IH]; [repeat constructor; auto|].
  cbn [split_on]. destruct (c =? sep)%N eqn:Hc.
  - constructor; [auto|assumption].
  - apply N.eqb_neq in Hc.
    destruct (split_on sep r) as [|w ws]; [repeat constructor; intros [H|[]]; auto|].
    inversion IH as [|? ? Hw Hws]; subst. constructor; [|assumption].
    intros [H|H]; [auto|contradiction].
Qed.

Lemma split_on_line (sep : char) (l : str) :
  ~ In sep l -> split_on sep l = [l].
Proof.
  induction l as [|c r IH]; intros H; [reflexivity|].
  cbn [split_on]. destruct (c =? sep)%N eqn:Hc.
  - apply N.eqb_eq in Hc. exfalso. apply H. now left.
  - rewrite IH; [reflexivity|]. intros Hin. apply H. now right.
Qed.

Lemma split_on_app_sep (sep : char) (l rest : str) :
  ~ In sep l -> split_on sep (l ++ sep :: rest) = l :: split_on sep rest.
Proof.
  induction l as [|c r IH]; intros H.
  - cbn [app split_on]. now rewrite N.eqb_refl.
  - cbn [app split_on]. destruct (c =? sep)%N eqn:Hc.
    + apply N.eqb_eq in Hc. exfalso. apply H. now left.
    + rewrite IH; [reflexivity|]. intros Hin. apply H. now right.
Qed.

Lemma split_on_join (sep : char) (ls : list str) :
  ls <> [] -> Forall (fun l => ~ In sep l) ls ->
  split_on sep (join [sep] ls) = ls.
Proof.
  intros Hne Hall. induction Hall as [|l r Hl Hr IH]; [now elim Hne|].
  destruct r as [|l' r'].
  - cbn [join]. now apply split_on_line.
  - change (join [sep] (l :: l' :: r')) with (l ++ sep :: join [sep] (l' :: r')).
    rewrite split_on_app_sep by assumption. f_equal. apply IH. discriminate.
Qed.

Lemma lstrip_incl (s : str) (c : char) : In c (lstrip s) -> In c s.
Proof.
  induction s as [|d r IH]; [auto|].
  cbn [lstrip]. destruct (isspace d); [|auto]. intros H. right. auto.
Qed.

Lemma strip_incl (s : str) (c : char) : In c (strip s) -> In c s.
Proof.
  unfold strip, rstrip. intros H. apply in_rev in H. apply lstrip_incl in H.
  apply in_rev in H. now apply lstrip_incl.
Qed.

(** ** The block grouper: what a block holds *)

Lemma bullets_then_plain_single (l : str) : bullets_then_plain [l].
Proof.
  destruct (is_bullet (strip l)) eqn:Hb.
  - exists [l], []. repeat split; auto.
  - exists [], [l]. repeat split; auto.
Qed.

Lemma bullets_then_plain_nil : bullets_then_plain [].
Proof. exists [], []. repeat split; constructor. Qed.

Lemma bullets_then_plain_add_plain (ls : list str) (l : str) :
  is_bullet (strip l) = false ->
  bullets_then_plain ls -> bullets_then_plain (ls ++ [l]).
Proof.
  intros Hl [bs [ps [-> [Hbs Hps]]]]. exists bs, (ps ++ [l]).
  split; [now rewrite app_assoc|]. split; [assumption|].
  now apply Forall_snoc.
Qed.

Lemma bullets_then_plain_add_bullet (ls : list str) (l : str) :
  is_bullet (strip l) = true -> Grouper.last_is_plain ls = false ->
  bullets_then_plain ls -> bullets_then_plain (ls ++ [l]).
Proof.
  intros Hl Hlast [bs [ps [-> [Hbs Hps]]]].
  destruct (rev ps) as [|x rps] eqn:Hrev.
  - apply (f_equal (@rev str)) in Hrev. rewrite rev_involutive in Hrev.
    simpl in Hrev. subst ps. rewrite app_nil_r.
    exists (bs ++ [l]), []. split; [now rewrite app_nil_r|].
    split; [now apply Forall_snoc|constructor].
  - exfalso. unfold Grouper.last_is_plain in Hlast.
    rewrite rev_app_distr, Hrev in Hlast. cbn [app] in Hlast.
    apply negb_false_iff in Hlast.
    assert (Hx : In x ps) by (apply in_rev; rewrite Hrev; now left).
    rewrite Forall_forall in Hps. rewrite (Hps x Hx) in Hlast. discriminate.
Qed.

Lemma flush_block_ok (ls : list str) :
  ls <> [] -> Forall no_newline ls -> bullets_then_plain ls ->
  bullets_then_plain (split_on nl (join [nl] ls)).
Proof. intros Hne Hnl Hls. now rewrite split_on_join. Qed.

Lemma grouper_step_inv st line :
  no_newline line -> grouper_inv st -> grouper_inv (Grouper.step st line).
Proof.
  intros Hline [Hblocks [Hnl Hcur]]. unfold Grouper.step, grouper_inv.
  destruct st as [blocks cur]. cbn [Grouper.blocks Grouper.current_block] in *.
  assert (Hflush : cur <> [] ->
            Forall (fun b => bullets_then_plain (split_on nl b))
              (blocks ++ [join [nl] cur])).
  { intros Hne. apply Forall_snoc; [assumption|]. now apply flush_block_ok. }
  assert (Hstripped : bullets_then_plain (split_on nl (strip line))).
  { rewrite split_on_line; [apply bullets_then_plain_single|].
    intros H. apply Hline. now apply strip_incl. }
  destruct (truthy (strip line)) eqn:Hs; cbn [negb].
  - destruct (startswith (py "#") (strip line)).
    + destruct cur as [|l cur']; cbn [truthy Grouper.blocks Grouper.current_block].
      * split; [now apply Forall_snoc|]. split; assumption.
      * split; [apply Forall_snoc; [apply Hflush; discriminate|assumption]|].
        split; [constructor|apply bullets_then_plain_nil].
    + destruct (is_bullet (strip line)) eqn:Hb.
      * destruct (Grouper.last_is_plain cur) eqn:Hlast;
          cbn [Grouper.blocks Grouper.current_block].
        -- split; [apply Hflush; intros ->; discriminate|].
           split; [now repeat constructor|apply bullets_then_plain_single].
        -- split; [assumption|]. split; [now apply Forall_snoc|].
           now apply bullets_then_plain_add_bullet.
      * cbn [Grouper.blocks Grouper.current_block].
        split; [assumption|]. split; [now apply Forall_snoc|].
        now apply bullets_then_plain_add_plain.
  - destruct cur as [|l cur']; cbn [truthy Grouper.blocks Grouper.current_block].
    + repeat split; assumption.
    + split; [apply Hflush; discriminate|].
      split; [constructor|apply bullets_then_plain_nil].
Qed.

Lemma group_blocks_shape (text : str) :
  Forall (fun b => bullets_then_plain (split_on nl b)) (group_blocks text).
Proof.
  unfold group_blocks.
  set (lines := split_on nl (strip text)).
  assert (Hinv : grouper_inv (fold_left Grouper.step lines Grouper.init)).
  { apply fold_invariant.
    - intros st line Hl. apply grouper_step_inv.
      pose proof (split_on_no_sep nl (strip text)) as Hall.
      rewrite Forall_forall in Hall. now apply Hall.
    - split; [constructor|]. split; [constructor|apply bullets_then_plain_nil]. }
  destruct Hinv as [Hblocks [Hnl Hcur]]. unfold Grouper.finish.
  destruct (Grouper.current_block _) as [|l cur'] eqn:Hc;
    cbn [truthy]; [assumption|].
  apply Forall_snoc; [assumption|]. apply flush_block_ok; [discriminate| |];
    assumption.
Qed.

(** ** The scan behind [re.sub] and [re.findall] *)

Lemma findall_from_skip (s : str) :
  forall k, findall_from k s = findall_from 0 (skipn k s).
Proof.
  induction s as [|c r IH]; intros k; [now destruct k|].
  destruct k as [|k]; [reflexivity|]. cbn [findall_from skipn]. apply IH.
Qed.

Lemma sub_from_skip (s : str) :
  forall k, sub_from k s = sub_from 0 (skipn k s).
Proof.
  induction s as [|c r IH]; intros k; [now destruct k|].
  destruct k as [|k]; [reflexivity|]. cbn [sub_from skipn]. apply IH.
Qed.

(** Up to the first match, the scan finds nothing and deletes nothing. *)
Lemma scan_no_match (k : nat) :
  forall s, k <= length s ->
    (forall j, j < k -> match_marker (skipn j s) = None) ->
    findall_from 0 s = findall_from 0 (skipn k s)
    /\ sub_from 0 s = firstn k s ++ sub_from 0 (skipn k s).
Proof.
  induction k as [|k IH]; intros s Hk Hnone; [now split|].
  destruct s as [|c r]; [simpl in Hk; lia|].
  pose proof (Hnone 0 (Nat.lt_0_succ k)) as H0. cbn [skipn] in H0.
  destruct (IH r) as [IH1 IH2].
  - simpl in Hk. lia.
  - intros j Hj. apply (Hnone (S j)). lia.
  - cbn [findall_from sub_from skipn firstn app]. rewrite H0.
    split; [assumption|now f_equal].
Qed.

Lemma scan_first_match (s : str) (m : re_match) :
  re_search s = Some m ->
  findall s = group1 m :: findall (skipn (m_end m) s)
  /\ re_sub_marker s = firstn (m_start m) s ++ re_sub_marker (skipn (m_end m) s).
Proof.
  intros H. pose proof (search_from_some s 0 m H) as [k [len [H1 [H2 [H3 H4]]]]].
  simpl in H1, H2. rewrite H1, H2.
  pose proof (match_marker_sound _ _ _ H3) as [Hd [Hlen [rest Hrest]]].
  assert (Hk : k <= length s).
  { destruct (Nat.le_gt_cases k (length s)) as [Hle|Hgt]; [assumption|].
    rewrite skipn_all2 in Hrest by lia. discriminate. }
  destruct (scan_no_match k s Hk H4) as [Hf Hs].
  unfold findall, re_sub_marker. rewrite Hf, Hs.
  destruct (skipn k s) as [|c r] eqn:Hsk; [discriminate|].
  cbn [findall_from sub_from]. rewrite H3.
  assert (Hl : len = S (pred len)) by (rewrite Hlen, marker_length; lia).
  assert (Hskip : skipn (pred len) r = skipn (k + len) s).
  { rewrite Nat.add_comm, <- skipn_skipn, Hsk, Hl. reflexivity. }
  now rewrite findall_from_skip, sub_from_skip, Hskip.
Qed.

Lemma scan_none (s : str) :
  re_search s = None -> findall s = [] /\ re_sub_marker s = s.
Proof.
  intros H. pose proof (search_from_none s 0 H) as Hnone.
  destruct (scan_no_match (length s) s (Nat.le_refl _)) as [Hf Hs].
  - intros j _. apply Hnone.
  - unfold findall, re_sub_marker.
    rewrite Hf, Hs, skipn_all, firstn_all. simpl. split; [reflexivity|].
    apply app_nil_r.
Qed.


(** *** Whitespace around a string does not change its markers *)

Lemma match_marker_space (c : char) (r : str) :
  isspace c = true -> match_marker (c :: r) = None.
Proof.
  intros Hc. destruct (match_marker (c :: r)) as [[ds len]|] eqn:Hm;
    [|reflexivity].
  apply match_marker_nonspace in Hm. destruct Hm as [Hns _]. congruence.
Qed.

Lemma findall_lstrip (s : str) : findall (lstrip s) = findall s.
Proof.
  unfold findall. induction s as [|c r IH]; [reflexivity|].
  cbn [lstrip]. destruct (isspace c) eqn:Hc; [|reflexivity].
  cbn [findall_from]. now rewrite (match_marker_space c r Hc).
Qed.

Lemma spaces_not_marker (ds l : str) (c : char) (x : str) :
  digits ds -> isspace c = true -> marker ds = x ++ c :: l -> False.
Proof.
  intros Hd Hc Hm. pose proof (marker_nonspace ds Hd) as Hns.
  rewrite Hm in Hns. apply Forall_app in Hns. destruct Hns as [_ Hns].
  inversion Hns; subst. congruence.
Qed.

Lemma match_marker_app_spaces (x ws : str) :
  head_stops (fun c => negb (isspace c)) ws ->
  match_marker (x ++ ws) = match_marker x.
Proof.
  intros Hws.
  destruct (match_marker x) as [[ds len]|] eqn:Hx.
  - apply match_marker_sound in Hx. destruct Hx as [Hd [-> [rest ->]]].
    rewrite <- app_assoc. now apply match_marker_complete.
  - destruct (match_marker (x ++ ws)) as [[ds len]|] eqn:Hxw; [|reflexivity].
    exfalso. apply match_marker_sound in Hxw.
    destruct Hxw as [Hd [_ [rest Heq]]].
    apply app_eq_app in Heq. destruct Heq as [l [[Hx1 Hx2]|[Hm1 Hm2]]].
    + subst x. rewrite match_marker_complete in Hx by assumption. discriminate.
    + destruct l as [|c l'].
      * rewrite app_nil_r in Hm1. subst x.
        rewrite <- (app_nil_r (marker ds)) in Hx.
        rewrite match_marker_complete in Hx by assumption. discriminate.
      * subst ws. simpl in Hws. apply negb_false_iff in Hws.
        now apply (spaces_not_marker ds l' c x Hd Hws).
Qed.

Lemma spaces_head_stops (ws : str) :
  Forall (fun c => isspace c = true) ws ->
  head_stops (fun c => negb (isspace c)) ws.
Proof. intros [|c r Hc _]; simpl; [exact I|now rewrite Hc]. Qed.

Lemma findall_spaces (ws : str) :
  Forall (fun c => isspace c = true) ws -> forall k, findall_from k ws = [].
Proof.
  intros H. induction H as [|c r Hc _ IH]; intros k; [now destruct k|].
  destruct k as [|k]; cbn [findall_from]; [|apply IH].
  rewrite (match_marker_space c r Hc). apply IH.
Qed.

Lemma findall_app_spaces (x ws : str) :
  Forall (fun c => isspace c = true) ws ->
  forall k, findall_from k (x ++ ws) = findall_from k x.
Proof.
  intros Hws. induction x as [|c r IH]; intros k.
  - rewrite (findall_spaces ws Hws). now destruct k.
  - destruct k as [|k]; cbn [app findall_from]; [|apply IH].
    change (c :: r ++ ws) with ((c :: r) ++ ws).
    rewrite (match_marker_app_spaces (c :: r) ws (spaces_head_stops ws Hws)).
    destruct (match_marker (c :: r)) as [[ds len]|]; now rewrite IH.
Qed.

Lemma findall_strip (s : str) : findall (strip s) = findall s.
Proof.
  unfold strip. rewrite <- (findall_lstrip s).
  destruct (rstrip_decompose (lstrip s)) as [ws [Hs Hws]].
  rewrite Hs at 2. unfold findall. now rewrite findall_app_spaces.
Qed.



Lemma relocate_one_match (segment : str) (m : re_match) :
  re_search segment = Some m ->
  relocate_one segment
  = emit (strip (firstn (m_end m) segment))
      ++ emit (strip (skipn (m_end m) segment)).
Proof.
  intros H. unfold relocate_one, relocate_step, emit. rewrite H.
  destruct (truthy (strip (firstn (m_end m) segment)));
    destruct (truthy (strip (skipn (m_end m) segment))); reflexivity.
Qed.

(** ** Sentences *)







(** *** An oversized sentence is a chunk of its own *)





(** *** From the sentence splitter to the packed segments *)








(** *** Through the relocator and the classifier, without a marker *)





(** ** Markers left in the text of a segment *)

Lemma marker_cons (ds : str) : exists r, marker ds = 33%N :: r.
Proof. unfold marker. simpl. eauto. Qed.

Lemma marker_at_nil (p : nat) : ~ marker_at [] p.
Proof.
  intros [ds [rest [_ H]]]. rewrite skipn_nil in H.
  destruct (marker_cons ds) as [r Hr]. rewrite Hr in H. discriminate.
Qed.

Lemma marker_at_lt (s : str) (p : nat) : marker_at s p -> p < length s.
Proof.
  intros [ds [rest [_ H]]].
  destruct (Nat.lt_ge_cases p (length s)) as [Hlt|Hge]; [assumption|].
  rewrite skipn_all2 in H by assumption.
  destruct (marker_cons ds) as [r Hr]. rewrite Hr in H. discriminate.
Qed.

Lemma marker_at_infix (l x r : str) (p : nat) :
  marker_at x p -> marker_at (l ++ x ++ r) (length l + p).
Proof.
  intros H. pose proof (marker_at_lt x p H) as Hp.
  destruct H as [ds [rest [Hd H]]]. exists ds, (rest ++ r). split; [assumption|].
  rewrite Nat.add_comm, <- skipn_skipn, skipn_app_exact by reflexivity.
  rewrite skipn_app, H.
  replace (p - length x) with 0 by lia. now rewrite <- app_assoc.
Qed.

Lemma lstrip_decompose (s : str) : exists ws, s = ws ++ lstrip s.
Proof.
  induction s as [|c r [ws IH]]; [now exists []|].
  cbn [lstrip]. destruct (isspace c); [|now exists []].
  exists (c :: ws). simpl. now f_equal.
Qed.

Lemma strip_decompose (s : str) : exists l r, s = l ++ strip s ++ r.
Proof.
  destruct (lstrip_decompose s) as [l Hl].
  destruct (rstrip_decompose (lstrip s)) as [r [Hr _]].
  exists l, r. unfold strip. now rewrite <- Hr.
Qed.

Lemma no_marker_strip (s : str) : no_marker s -> no_marker (strip s).
Proof.
  intros Hno p Hp. destruct (strip_decompose s) as [l [r Hs]].
  apply (Hno (length l + p)). rewrite Hs at 1. now apply marker_at_infix.
Qed.

(** A run without whitespace at the head of the collapsed string is at the
    head of the string. *)
Lemma sub_ws_prefix (m : str) :
  Forall (fun c => isspace c = false) m ->
  forall s rest, sub_ws_from false s = m ++ rest -> exists rest', s = m ++ rest'.
Proof.
  intros Hm. induction Hm as [|a m' Ha _ IH]; intros s rest H; [now exists s|].
  destruct s as [|c r]; [discriminate|].
  cbn [sub_ws_from app] in H. destruct (isspace c) eqn:Hc.
  - injection H as <- _. rewrite isspace_space in Ha. discriminate.
  - injection H as <- H. destruct (IH _ _ H) as [rest' ->]. now exists rest'.
Qed.

Lemma sub_ws_nonspace_head (c : char) (r : str) (in_run : bool) :
  isspace c = false ->
  sub_ws_from in_run (c :: r) = sub_ws_from false (c :: r).
Proof. intros Hc. cbn [sub_ws_from]. now rewrite Hc. Qed.

Lemma marker_at_sub_ws (s : str) :
  forall in_run p, marker_at (sub_ws_from in_run s) p -> exists p', marker_at s p'.
Proof.
  induction s as [|c r IH]; intros in_run p H;
    [now apply marker_at_nil in H|].
  destruct (isspace c) eqn:Hc.
  - cbn [sub_ws_from] in H. rewrite Hc in H. destruct in_run.
    + destruct (IH _ _ H) as [p' Hp']. now exists (S p').
    + destruct p as [|p].
      * destruct H as [ds [rest [_ H]]]. destruct (marker_cons ds) as [x Hx].
        rewrite Hx in H. discriminate.
      * destruct (IH _ _ H) as [p' Hp']. now exists (S p').
  - destruct p as [|p].
    + rewrite (sub_ws_nonspace_head c r in_run Hc) in H.
      destruct H as [ds [rest [Hd H]]]. cbn [skipn] in H.
      destruct (sub_ws_prefix _ (marker_nonspace ds Hd) _ _ H) as [rest' Hs].
      exists 0, ds, rest'. now split.
    + cbn [sub_ws_from] in H. rewrite Hc in H.
      destruct (IH _ _ H) as [p' Hp']. now exists (S p').
Qed.

Lemma no_marker_sub_ws (s : str) : no_marker s -> no_marker (re_sub_ws s).
Proof.
  intros Hno p Hp. destruct (marker_at_sub_ws _ _ _ Hp) as [p' Hp'].
  now apply (Hno p').
Qed.

Lemma sub_head_space (s : str) :
  head_stops (fun c => negb (isspace c)) s ->
  head_stops (fun c => negb (isspace c)) (re_sub_marker s).
Proof.
  destruct s as [|c r]; [auto|]. cbn [head_stops]. intros Hc.
  apply negb_false_iff in Hc. unfold re_sub_marker. cbn [sub_from].
  rewrite (match_marker_space c r Hc). cbn [head_stops]. now rewrite Hc.
Qed.

Lemma markers_delimited_suffix (x after : str) :
  markers_delimited (x ++ after) -> markers_delimited after.
Proof.
  intros H p ds rest Hd Hs. apply (H (length x + p) ds rest Hd).
  now rewrite Nat.add_comm, <- skipn_skipn, skipn_app_exact.
Qed.

Lemma no_marker_sub_marker (n : nat) :
  forall s, length s <= n -> markers_delimited s -> no_marker (re_sub_marker s).
Proof.
  induction n as [|n IH]; intros s Hlen Hdel.
  - destruct s; [|simpl in Hlen; lia]. intros p. apply marker_at_nil.
  - destruct (re_search s) as [m|] eqn:Hs.
    + destruct (scan_first_match _ _ Hs) as [_ Hsub].
      destruct (re_search_first _ _ Hs) as [Hend [[Heq [Hd Hfirst]] _]].
      set (before := firstn (m_start m) s) in *.
      set (after := skipn (m_end m) s) in *.
      assert (Hafter : markers_delimited after).
      { apply (markers_delimited_suffix (before ++ marker (group1 m))).
        now rewrite <- app_assoc, <- Heq. }
      assert (Hshort : length after <= n).
      { apply (f_equal (@length char)) in Heq.
        rewrite !length_app, marker_length in Heq. lia. }
      pose proof (IH after Hshort Hafter) as Hno.
      assert (Hhead : head_stops (fun c => negb (isspace c)) (re_sub_marker after)).
      { apply sub_head_space. apply (Hdel (length before) (group1 m)); [assumption|].
        rewrite Heq at 1. now apply skipn_app_exact. }
      rewrite Hsub. intros p [ds' [rest' [Hd' Hp]]].
      rewrite skipn_app in Hp.
      destruct (Nat.lt_ge_cases p (length before)) as [Hlt|Hge].
      * replace (p - length before) with 0 in Hp by lia. cbn [skipn] in Hp.
        apply app_eq_app in Hp. destruct Hp as [l [[Hb _]|[Hm Hy]]].
        -- apply (Hfirst p Hlt). exists ds', (l ++ marker (group1 m) ++ after).
           split; [assumption|].
           rewrite Heq at 1. rewrite skipn_app, Hb.
           replace (p - length before) with 0 by lia.
           now rewrite <- app_assoc.
        -- destruct l as [|c l'].
           ++ apply (Hfirst p Hlt). exists ds', (marker (group1 m) ++ after).
              split; [assumption|].
              rewrite Heq at 1. rewrite skipn_app.
              replace (p - length before) with 0 by lia.
              rewrite app_nil_r in Hm. now rewrite Hm.
           ++ rewrite Hy in Hhead. cbn [head_stops] in Hhead.
              apply negb_false_iff in Hhead.
              now apply (spaces_not_marker ds' l' c (skipn p before) Hd' Hhead).
      * rewrite skipn_all2 in Hp by assumption. cbn [app] in Hp.
        apply (Hno (p - length before)). now exists ds', rest'.
    + destruct (scan_none _ Hs) as [_ ->]. now apply re_search_none_iff.
Qed.

Lemma delimitedb_sound (s : str) : delimitedb s = true -> markers_delimited s.
Proof.
  induction s as [|c r IH]; intros H p ds rest Hd Hs.
  - exfalso. apply (marker_at_nil p). now exists ds, rest.
  - cbn [delimitedb] in H. apply andb_true_iff in H. destruct H as [H0 Hr].
    destruct p as [|p]; [|now apply (IH Hr p ds rest)].
    cbn [skipn] in Hs. rewrite Hs in H0.
    rewrite (match_marker_complete ds rest Hd) in H0.
    rewrite skipn_app_exact in H0 by reflexivity.
    destruct rest as [|d rest']; [exact I|].
    cbn [truthy negb orb head_is_space] in H0. cbn [head_stops].
    now rewrite H0.
Qed.

Lemma classify_text (raw : str) (segment : ScriptSegment) :
  classify raw = Ok segment ->
  text segment = normalize_ws (strip (re_sub_marker raw))
  /\ image_index segment
     = match findall raw with
       | [] => None
       | ds :: _ => py_int ds
       end.
Proof.
  intros H. apply classify_cases in H. unfold normalize_ws.
  destruct H as [_ [[Hs [Hi [_ Ht]]]|[m [n [Hs [Hn [Hi [_ Ht]]]]]]]].
  - destruct (scan_none _ Hs) as [Hf Hsub]. now rewrite Hsub, Hf.
  - destruct (scan_first_match _ _ Hs) as [Hf _]. rewrite Hf. split; congruence.
Qed.

(** * The claims of the specification *)

(** ** C1: the segments keep the content of the input *)

(** C1, as stated, fails: the segments of [a![]($1$)b], a blank line, [c] are
    [a![]($1$)], [b] and [c].  Put end to end they lose the boundary between
    [b] and [c]; joined by a space they gain one after the marker.  Neither
    is the input up to whitespace normalisation. *)
Lemma C1_counterexample :
  let text := py "a![]($1$)b" ++ [nl; nl] ++ py "c" in
  let segments := split_markdown_for_video_with_image_split text 150 in
  segments = [py "a![]($1$)"; py "b"; py "c"]
  /\ normalize_ws (concat segments) <> normalize_ws text
  /\ normalize_ws (join (py " ") segments) <> normalize_ws text.
Proof.
  vm_compute. split; [reflexivity|]. split; discriminate.
Qed.

(** C1 (amended): for every input and every budget, the segments returned by
    [split_markdown_for_video_with_image_split], put end to end, have exactly
    the non-whitespace characters of the input, in the same order: nothing
    but whitespace is lost, nothing is duplicated or reordered. *)
Theorem C1_segments_keep_content (text : str) (max_words : Z) :
  nows (concat (split_markdown_for_video_with_image_split text max_words))
  = nows text.
Proof.
  rewrite nows_concat. apply split_markdown_contents.
Qed.

(** ** C2: what the relocator emits for one packed segment *)

(** C2: a packed segment that holds a marker is replaced, in place, by the
    trimmed text up to the end of its first marker and then by the trimmed
    text after it, each one only if it is non-empty; a segment without a
    marker is passed on unchanged. *)
Theorem C2_relocator_splits_at_first_marker
    (l1 l2 : list str) (segment : str) :
  (forall before ds after,
      first_marker segment before ds after ->
      relocate (l1 ++ segment :: l2)
      = relocate l1 ++ emit (strip (before ++ marker ds))
          ++ emit (strip after) ++ relocate l2)
  /\ (no_marker segment ->
      relocate (l1 ++ segment :: l2) = relocate l1 ++ [segment] ++ relocate l2).
Proof.
  split.
  - intros before ds after Hfirst.
    rewrite relocate_splice. f_equal. rewrite app_assoc. f_equal.
    pose proof (first_marker_search _ _ _ _ Hfirst) as Hsearch.
    destruct Hfirst as [Hs _].
    unfold relocate_one, relocate_step. rewrite Hsearch. cbn [m_end].
    assert (H1 : firstn (length before + length (marker ds)) segment
                 = before ++ marker ds).
    { rewrite Hs, app_assoc. apply firstn_app_exact. now rewrite length_app. }
    assert (H2 : skipn (length before + length (marker ds)) segment = after).
    { rewrite Hs, app_assoc. apply skipn_app_exact. now rewrite length_app. }
    rewrite H1, H2. unfold emit.
    destruct (truthy (strip (before ++ marker ds)));
      destruct (truthy (strip after)); reflexivity.
  - intros Hno. rewrite relocate_splice. f_equal. f_equal.
    apply re_search_none_iff in Hno.
    unfold relocate_one, relocate_step. now rewrite Hno.
Qed.

Lemma C2_witness :
  relocate [py "x"; py "A B ![]($2$) D E"; py "y"]
  = [py "x"; py "A B ![]($2$)"; py "D E"; py "y"]
  /\ relocate [py "x"; py "no marker here"; py "y"]
     = [py "x"; py "no marker here"; py "y"].
Proof.
  split.
  - refine (proj1 (C2_relocator_splits_at_first_marker
                     [py "x"] [py "y"] (py "A B ![]($2$) D E"))
              (py "A B ") (py "2") (py " D E") _).
    split; [reflexivity|]. split.
    + split; [discriminate|]. repeat constructor.
    + intros p Hp Hat. apply marker_at_match in Hat.
      destruct Hat as [ds [len Hat]].
      do 4 (destruct p as [|p]; [vm_compute in Hat; discriminate|]).
      simpl in Hp. lia.
  - refine (proj2 (C2_relocator_splits_at_first_marker
                     [py "x"] [py "y"] (py "no marker here")) _).
    apply re_search_none_iff. reflexivity.
Defined.

(** ** C3: the word budget *)

(** C3: every segment returned by [get_script_segments] that is not formed
    from a single atomic unit (one sentence with more words than the budget,
    of a block or of a bullet line) has a text of at most [max_words] words. *)
Theorem C3_budget_respected
    (markdown_text : str) (max_words : Z)
    (segments : list ScriptSegment) (segment : ScriptSegment) :
  get_script_segments markdown_text max_words = Ok segments ->
  In segment segments ->
  ~ formed_from_atomic_unit markdown_text max_words segment ->
  (word_count (text segment) <= max_words)%Z.
Proof.
  intros Hrun Hin Hnot.
  destruct (get_script_segments_origin _ _ _ _ Hrun Hin) as [Hraw [Hcl _]].
  unfold split_markdown_for_video_with_image_split in Hraw.
  apply relocate_origin in Hraw. destruct Hraw as [p [Hp Hq]].
  pose proof (pack_blocks_ok (group_blocks markdown_text) max_words) as Hok.
  rewrite Forall_forall in Hok. destruct (Hok p Hp) as [Hle|Hatomic].
  - pose proof (classify_word_count _ _ Hcl).
    pose proof (relocate_one_word_count _ _ Hq). lia.
  - exfalso. apply Hnot. now exists p.
Qed.

Lemma C3_witness :
  (word_count (text (mkScriptSegment (py "a b.") None false (py "a b."))) <= 2)%Z.
Proof.
  apply (C3_budget_respected (py "a b. c d.") 2
           [mkScriptSegment (py "a b.") None false (py "a b.");
            mkScriptSegment (py "c d.") None false (py "c d.")]).
  - reflexivity.
  - now left.
  - intros [p [[block [unit [Hb [Hu [sentence [Hs [Hp Hw]]]]]]] _]].
    vm_compute in Hb. destruct Hb as [<-|[]].
    vm_compute in Hu. destruct Hu as [<-|[]].
    vm_compute in Hs. destruct Hs as [<-|[<-|[]]];
      subst p; vm_compute in Hw; discriminate.
Defined.

(** ** C4: plain lines after bullet lines *)

(** C4, as stated, fails: a plain line that follows a bullet line joins the
    block of the bullet line; nothing is flushed, and the block that comes
    out holds a bullet line and a plain line. *)
Lemma C4_counterexample :
  let text := py "- item" ++ [nl] ++ py "plain" in
  is_bullet (strip (py "- item")) = true
  /\ is_bullet (strip (py "plain")) = false
  /\ startswith (py "#") (strip (py "plain")) = false
  /\ Grouper.step (Grouper.mk [] [py "- item"]) (py "plain")
     = Grouper.mk [] [py "- item"; py "plain"]
  /\ group_blocks text = [text]
  /\ split_on nl text = [py "- item"; py "plain"]
  /\ ~ (forall block,
          In block (group_blocks text) ->
          Forall (fun l => is_bullet (strip l) = true) (split_on nl block)
          \/ Forall (fun l => is_bullet (strip l) = false) (split_on nl block)).
Proof.
  cbv zeta. do 6 (split; [reflexivity|]).
  intros H.
  assert (Hin : In (py "- item" ++ [nl] ++ py "plain")
                   (group_blocks (py "- item" ++ [nl] ++ py "plain")))
    by (left; reflexivity).
  specialize (H _ Hin).
  change (split_on nl (py "- item" ++ [nl] ++ py "plain"))
    with [py "- item"; py "plain"] in H.
  destruct H as [Hall|Hall].
  - inversion Hall as [|? ? _ Hrest]. inversion Hrest as [|? ? Hplain _].
    discriminate Hplain.
  - inversion Hall as [|? ? Hbullet _]. discriminate Hbullet.
Qed.

(** C4 (amended): in the block grouper a non-blank line that is neither a
    header nor a bullet or numbered item is appended to the current block,
    whatever that block holds: a bullet-run is not flushed.  Consequently a
    block may hold bullet lines followed by plain lines; every block is a run
    of bullet lines followed by a run of other lines, so that no bullet line
    comes after a plain line of its block. *)
Theorem C4_plain_line_joins_block :
  (forall st line,
      truthy (strip line) = true ->
      startswith (py "#") (strip line) = false ->
      is_bullet (strip line) = false ->
      Grouper.step st line
      = Grouper.mk (Grouper.blocks st) (Grouper.current_block st ++ [line]))
  /\ (forall text block,
      In block (group_blocks text) -> bullets_then_plain (split_on nl block)).
Proof.
  split.
  - intros st line Hs Hh Hb. unfold Grouper.step. now rewrite Hs, Hh, Hb.
  - intros text block Hin.
    pose proof (group_blocks_shape text) as Hall.
    rewrite Forall_forall in Hall. now apply Hall.
Qed.

Lemma C4_witness :
  Grouper.step (Grouper.mk [] [py "- item"]) (py "plain")
  = Grouper.mk [] ([py "- item"] ++ [py "plain"])
  /\ bullets_then_plain
       (split_on nl (py "- item" ++ [nl] ++ py "- other" ++ [nl] ++ py "plain")).
Proof.
  split.
  - apply (proj1 C4_plain_line_joins_block
             (Grouper.mk [] [py "- item"]) (py "plain")); reflexivity.
  - apply (proj2 C4_plain_line_joins_block
             (py "# T" ++ [nl] ++ py "- item" ++ [nl] ++ py "- other"
                ++ [nl] ++ py "plain")).
    vm_compute. right. now left.
Defined.

(** ** C5: a packed segment with several markers *)



(** ** C6: the image fields of a segment *)

(** C6, as stated, fails: on [x ![]($0$)] the only segment has
    [image_index = 0], which is present and is not positive. *)
Lemma C6_counterexample :
  get_script_segments (py "x ![]($0$)") 150
  = Ok [mkScriptSegment (py "x") (Some 0%Z) true (py "x ![]($0$)")]
  /\ ~ (forall segments segment,
         get_script_segments (py "x ![]($0$)") 150 = Ok segments ->
         In segment segments ->
         (has_image segment = true <-> image_index segment <> None)
         /\ forall n, image_index segment = Some n -> (0 < n)%Z).
Proof.
  split; [reflexivity|]. intros H.
  destruct (H _ (mkScriptSegment (py "x") (Some 0%Z) true (py "x ![]($0$)"))
              eq_refl (or_introl eq_refl)) as [_ Hpos].
  specialize (Hpos 0%Z eq_refl). lia.
Qed.

(** C6 (amended): in every segment returned by [get_script_segments],
    [has_image] is true if and only if [image_index] is present, and an
    [image_index] that is present is a non-negative integer: the value of the
    digits of the first marker of [raw_text]. *)
Theorem C6_image_fields
    (markdown_text : str) (max_words : Z)
    (segments : list ScriptSegment) (segment : ScriptSegment) :
  get_script_segments markdown_text max_words = Ok segments ->
  In segment segments ->
  (has_image segment = true <-> image_index segment <> None)
  /\ forall n, image_index segment = Some n ->
       (0 <= n)%Z
       /\ exists before ds after,
            first_marker (raw_text segment) before ds after
            /\ py_int ds = Some n.
Proof.
  intros Hrun Hin.
  destruct (get_script_segments_origin _ _ _ _ Hrun Hin) as [_ [Hcl _]].
  apply classify_cases in Hcl. destruct Hcl as [_ Hcl].
  destruct Hcl as [[_ [Hi [Hh _]]]|[m [n [Hs [Hn [Hi [Hh _]]]]]]];
    rewrite Hi, Hh.
  - split; [split; [discriminate|congruence]|discriminate].
  - split; [split; [discriminate|reflexivity]|].
    intros n' Hn'. injection Hn' as <-.
    destruct (py_int_digits _ (re_search_digits _ _ Hs)) as [n0 [Hn0 Hpos]].
    split; [congruence|].
    destruct (re_search_first _ _ Hs) as [_ [Hfirst _]]. eauto.
Qed.

Lemma C6_witness :
  (true = true <-> Some 1%Z <> None)
  /\ forall n, Some 1%Z = Some n ->
       (0 <= n)%Z
       /\ exists before ds after,
            first_marker (py "Money is a tool. ![]($1$)") before ds after
            /\ py_int ds = Some n.
Proof.
  apply (C6_image_fields (py "Money is a tool. ![]($1$)") 150
           [mkScriptSegment (py "Money is a tool.") (Some 1%Z) true
              (py "Money is a tool. ![]($1$)")]
           (mkScriptSegment (py "Money is a tool.") (Some 1%Z) true
              (py "Money is a tool. ![]($1$)"))).
  - reflexivity.
  - now left.
Defined.

(** ** C7: a sentence over the budget *)




(** ** C8: totality *)


(** ** C9: markers in the text of a segment *)

(** C9, as stated, fails: the relocator emits [![]($1![]($2$)$)] as the rest
    of the input below; the classifier finds one match in it, [![]($2$)],
    and deleting that match brings together the characters of [![]($1$)]:
    the text of the segment is a marker. *)
Lemma C9_counterexample :
  get_script_segments (py "![]($1$) ![]($1![]($2$)$)") 150
  = Ok [mkScriptSegment (py "![]($1$)") (Some 2%Z) true (py "![]($1![]($2$)$)")]
  /\ findall (py "![]($1$)") = [py "1"]
  /\ ~ no_marker (py "![]($1$)").
Proof.
  split; [reflexivity|]. split; [reflexivity|].
  intros H. apply (H 0). exists (py "1"), []. split; [|reflexivity].
  split; [discriminate|repeat constructor].
Qed.

(** C9 (amended): for every input, the text of every segment returned by
    [get_script_segments] is its [raw_text] with every match of one scan from
    the left deleted (the substitution is global) and whitespace normalised,
    and [image_index] is read from the first match only.  The text has no
    occurrence of the marker pattern whenever every marker of [raw_text] is
    followed by whitespace or ends [raw_text], in particular when [raw_text]
    holds no marker. *)
Theorem C9_text_without_markers
    (markdown_text : str) (max_words : Z)
    (segments : list ScriptSegment) (segment : ScriptSegment) :
  get_script_segments markdown_text max_words = Ok segments ->
  In segment segments ->
  text segment = normalize_ws (strip (re_sub_marker (raw_text segment)))
  /\ image_index segment
     = match findall (raw_text segment) with
       | [] => None
       | ds :: _ => py_int ds
       end
  /\ (markers_delimited (raw_text segment) -> no_marker (text segment)).
Proof.
  intros Hrun Hin.
  destruct (get_script_segments_origin _ _ _ _ Hrun Hin) as [_ [Hcl _]].
  destruct (classify_text _ _ Hcl) as [Ht Hi].
  split; [assumption|]. split; [assumption|].
  intros Hdel. rewrite Ht. unfold normalize_ws.
  apply no_marker_strip, no_marker_sub_ws, no_marker_strip.
  now apply (no_marker_sub_marker (length (raw_text segment))).
Qed.

Lemma C9_witness :
  py "b c d" = normalize_ws (strip (re_sub_marker (py "b ![]($2$) c ![]($3$) d")))
  /\ Some 2%Z = match findall (py "b ![]($2$) c ![]($3$) d") with
                | [] => None
                | ds :: _ => py_int ds
                end
  /\ no_marker (py "b c d").
Proof.
  destruct (C9_text_without_markers
              (py "a ![]($1$) b ![]($2$) c ![]($3$) d") 150
              [mkScriptSegment (py "a") (Some 1%Z) true (py "a ![]($1$)");
               mkScriptSegment (py "b c d") (Some 2%Z) true
                 (py "b ![]($2$) c ![]($3$) d")]
              (mkScriptSegment (py "b c d") (Some 2%Z) true
                 (py "b ![]($2$) c ![]($3$) d")))
    as [Ht [Hi Hno]].
  - reflexivity.
  - right. now left.
  - split; [exact Ht|]. split; [exact Hi|].
    apply Hno. apply delimitedb_sound. reflexivity.
Defined.

(** ** C10: one split per packed segment *)

(** C10: the relocator cuts a packed segment at most once.  What follows the
    first marker is emitted, trimmed, without a second search, and holds
    exactly the markers of the packed segment after the first; so a segment
    of the relocator, and the [raw_text] of a final segment, can still hold
    markers: the input below gives a segment whose [raw_text] holds the
    markers 2 and 3. *)
Theorem C10_at_most_one_split :
  (forall segment, length (relocate_one segment) <= 2)
  /\ (forall segment m,
        re_search segment = Some m ->
        relocate_one segment
        = emit (strip (firstn (m_end m) segment))
            ++ emit (strip (skipn (m_end m) segment))
        /\ findall (strip (skipn (m_end m) segment)) = tl (findall segment))
  /\ (let input := py "a ![]($1$) b ![]($2$) c ![]($3$) d" in
      split_markdown_for_video_with_image_split input 150
      = [py "a ![]($1$)"; py "b ![]($2$) c ![]($3$) d"]
      /\ get_script_segments input 150
         = Ok [mkScriptSegment (py "a") (Some 1%Z) true (py "a ![]($1$)");
               mkScriptSegment (py "b c d") (Some 2%Z) true
                 (py "b ![]($2$) c ![]($3$) d")]
      /\ findall (py "b ![]($2$) c ![]($3$) d") = [py "2"; py "3"]).
Proof.
  split; [|split].
  - intros segment. unfold relocate_one, relocate_step.
    destruct (re_search segment) as [m|]; [|simpl; lia].
    destruct (truthy (strip (firstn (m_end m) segment)));
      destruct (truthy (strip (skipn (m_end m) segment))); simpl; lia.
  - intros segment m Hs. split; [now apply relocate_one_match|].
    destruct (scan_first_match _ _ Hs) as [Hf _].
    now rewrite findall_strip, Hf.
  - vm_compute. repeat split; reflexivity.
Qed.

Lemma C10_witness :
  relocate_one (py "b ![]($2$) c ![]($3$) d")
  = emit (strip (firstn 10 (py "b ![]($2$) c ![]($3$) d")))
      ++ emit (strip (skipn 10 (py "b ![]($2$) c ![]($3$) d")))
  /\ findall (strip (skipn 10 (py "b ![]($2$) c ![]($3$) d")))
     = tl (findall (py "b ![]($2$) c ![]($3$) d")).
Proof.
  apply (proj1 (proj2 C10_at_most_one_split)
           (py "b ![]($2$) c ![]($3$) d") (mk_match 2 10 (py "2"))).
  reflexivity.
Defined.

(** * Further properties of the code *)

(** ** A document that starts with a header *)

Lemma rstrip_nil_iff (s : str) : rstrip s = [] <-> nows s = [].
Proof.
  unfold rstrip. split; intros H.
  - apply (f_equal (@rev char)) in H. rewrite rev_involutive in H. simpl in H.
    apply lstrip_nil_iff in H. rewrite nows_rev in H.
    apply (f_equal (@rev char)) in H. now rewrite rev_involutive in H.
  - assert (Hl : lstrip (rev s) = [])
      by (apply lstrip_nil_iff; now rewrite nows_rev, H).
    now rewrite Hl.
Qed.

(** Stripping keeps a first character that is not whitespace. *)
Lemma strip_head (c : char) (r : str) :
  isspace c = false -> exists r', strip (c :: r) = c :: r'.
Proof.
  intros Hc. unfold strip. cbn [lstrip]. rewrite Hc.
  destruct (rstrip_decompose (c :: r)) as [ws [Hs Hws]].
  destruct (rstrip (c :: r)) as [|d r'] eqn:Hr.
  - apply rstrip_nil_iff in Hr. rewrite (nows_nonspace_cons c r Hc) in Hr.
    discriminate.
  - simpl in Hs. injection Hs as <- _. now exists r'.
Qed.


(** The loops append to what they have produced. *)
Lemma grouper_step_blocks st line :
  exists extra, Grouper.blocks (Grouper.step st line) = Grouper.blocks st ++ extra.
Proof.
  unfold Grouper.step. destruct st as [blocks cur].
  cbn [Grouper.blocks Grouper.current_block].
  destruct (truthy (strip line)); cbn [negb].
  - destruct (startswith (py "#") (strip line)).
    + destruct (truthy cur); cbn [Grouper.blocks];
        rewrite <- ?app_assoc; eauto.
    + destruct (is_bullet (strip line));
        [destruct (Grouper.last_is_plain cur)|]; cbn [Grouper.blocks];
        try (exists []; now rewrite app_nil_r); eauto.
  - destruct (truthy cur); cbn [Grouper.blocks];
      try (exists []; now rewrite app_nil_r); eauto.
Qed.

Lemma grouper_fold_blocks (lines : list str) :
  forall st, exists extra,
    Grouper.finish (fold_left Grouper.step lines st) = Grouper.blocks st ++ extra.
Proof.
  induction lines as [|l ls IH]; intros st.
  - cbn [fold_left]. unfold Grouper.finish.
    destruct (truthy (Grouper.current_block st)); eauto.
    exists []. now rewrite app_nil_r.
  - cbn [fold_left]. destruct (IH (Grouper.step st l)) as [extra Hx].
    destruct (grouper_step_blocks st l) as [e He].
    rewrite Hx, He, <- app_assoc. eauto.
Qed.

Lemma startswith_hash_iff (s : str) :
  startswith (py "#") s = true <-> exists r, s = hash :: r.
Proof.
  unfold startswith. split.
  - destruct (strip_prefix (py "#") s) as [r|] eqn:H; [|discriminate].
    intros _. apply strip_prefix_spec in H. now exists r.
  - intros [r ->]. reflexivity.
Qed.













Lemma match_marker_hash (x : str) : match_marker (hash :: x) = None.
Proof. reflexivity. Qed.








(** ** [process_markdown]: the links *)

Lemma lazy_to_spec (needle : str) (s : str) :
  forall n, lazy_to needle s = Some n ->
  exists u rest,
    s = u ++ needle ++ rest /\ n = length u + length needle /\ ~ In nl u.
Proof.
  induction s as [|c r IH]; intros n H; cbn [lazy_to] in H.
  - unfold startswith in H.
    destruct (strip_prefix needle []) as [rest|] eqn:Hp; [|discriminate].
    apply strip_prefix_spec in Hp. injection H as <-.
    exists [], rest. auto.
  - unfold startswith in H.
    destruct (strip_prefix needle (c :: r)) as [rest|] eqn:Hp.
    + apply strip_prefix_spec in Hp. injection H as <-.
      exists [], rest. auto.
    + destruct (c =? nl)%N eqn:Hc; [discriminate|].
      destruct (lazy_to needle r) as [k|]; [|discriminate].
      injection H as <-. destruct (IH k eq_refl) as [u [rest [-> [-> Hu]]]].
      exists (c :: u), rest. split; [reflexivity|]. split; [reflexivity|].
      apply N.eqb_neq in Hc. intros [Heq|Hin]; [now apply Hc|now apply Hu].
Qed.

Lemma match_lazy3_spec (a b c : str) (s : str) (len : nat) :
  match_lazy3 a b c s = Some len ->
  exists u v rest,
    s = a ++ u ++ b ++ v ++ c ++ rest
    /\ firstn len s = a ++ u ++ b ++ v ++ c
    /\ ~ In nl u /\ ~ In nl v.
Proof.
  unfold match_lazy3.
  destruct (strip_prefix a s) as [r|] eqn:Ha; [|discriminate].
  apply strip_prefix_spec in Ha.
  destruct (lazy_to b r) as [n1|] eqn:H1; [|discriminate].
  destruct (lazy_to_spec b r n1 H1) as [u [rest1 [Hr [Hn1 Hu]]]].
  assert (Hskip : skipn n1 r = rest1).
  { rewrite Hr, app_assoc. apply skipn_app_exact. now rewrite length_app. }
  rewrite Hskip.
  destruct (lazy_to c rest1) as [n2|] eqn:H2; [|discriminate].
  destruct (lazy_to_spec c rest1 n2 H2) as [v [rest [Hr1 [Hn2 Hv]]]].
  intros H. injection H as <-.
  exists u, v, rest. subst s r rest1.
  split; [reflexivity|].
  split; [|auto].
  replace (a ++ (u ++ b ++ v ++ c ++ rest))
    with ((a ++ u ++ b ++ v ++ c) ++ rest)
    by now rewrite <- !app_assoc.
  apply firstn_app_exact. rewrite !length_app. lia.
Qed.

Lemma match_lazy3_length (a b c : str) (s : str) (len : nat) :
  match_lazy3 a b c s = Some len ->
  exists u v rest,
    s = (a ++ u ++ b ++ v ++ c) ++ rest
    /\ len = length (a ++ u ++ b ++ v ++ c)
    /\ ~ In nl u /\ ~ In nl v.
Proof.
  unfold match_lazy3.
  destruct (strip_prefix a s) as [r|] eqn:Ha; [|discriminate].
  apply strip_prefix_spec in Ha.
  destruct (lazy_to b r) as [n1|] eqn:H1; [|discriminate].
  destruct (lazy_to_spec b r n1 H1) as [u [rest1 [Hr [Hn1 Hu]]]].
  assert (Hskip : skipn n1 r = rest1).
  { rewrite Hr, app_assoc. apply skipn_app_exact. now rewrite length_app. }
  rewrite Hskip.
  destruct (lazy_to c rest1) as [n2|] eqn:H2; [|discriminate].
  destruct (lazy_to_spec c rest1 n2 H2) as [v [rest [Hr1 [Hn2 Hv]]]].
  intros H. injection H as <-.
  exists u, v, rest. subst s r rest1.
  split; [now rewrite <- !app_assoc|].
  split; [|auto]. rewrite !length_app. lia.
Qed.

Lemma findall_with_spec (m : str -> option nat) (s : str) :
  forall skip x, In x (findall_with m skip s) ->
  exists pre s' len, s = pre ++ s' /\ m s' = Some len /\ x = firstn len s'.
Proof.
  induction s as [|c r IH]; intros skip x Hx; [destruct skip; destruct Hx|].
  assert (Hrec : forall k, In x (findall_with m k r) ->
            exists pre s' len,
              c :: r = pre ++ s' /\ m s' = Some len /\ x = firstn len s').
  { intros k Hk. destruct (IH k x Hk) as [pre [s' [len [-> [Hm Hf]]]]].
    exists (c :: pre), s', len. auto. }
  destruct skip as [|k]; cbn [findall_with] in Hx; [|now apply (Hrec k)].
  destruct (m (c :: r)) as [len|] eqn:Hm; [|now apply (Hrec 0)].
  destruct Hx as [<-|Hx]; [|now apply (Hrec (pred len))].
  exists [], (c :: r), len. auto.
Qed.

Lemma image_link_shape (text link : str) :
  In link (snd (process_markdown text)) ->
  exists u v pre post,
    link = py "https://" ++ u ++ py "zhimg.com/" ++ v ++ py ".jpg"
    /\ ~ In nl u /\ ~ In nl v
    /\ text = pre ++ link ++ post.
Proof.
  unfold process_markdown. cbn [snd]. intros H.
  apply findall_with_spec in H. destruct H as [pre [s' [len [-> [Hm ->]]]]].
  apply match_lazy3_spec in Hm.
  destruct Hm as [u [v [rest [Hs [Hf [Hu Hv]]]]]].
  exists u, v, pre, rest. rewrite Hf. split; [reflexivity|].
  split; [assumption|]. split; [assumption|].
  rewrite Hs at 1. now rewrite <- !app_assoc.
Qed.

(** X1: Every element of the [image_links] that [process_markdown] returns is a
    piece of the text, on one line, made of [https://], some text,
    [zhimg.com/], some text and [.jpg]. *)
Theorem image_links_well_formed (text link : str) :
  In link (snd (process_markdown text)) ->
  exists u v pre post,
    link = py "https://" ++ u ++ py "zhimg.com/" ++ v ++ py ".jpg"
    /\ ~ In nl u /\ ~ In nl v
    /\ text = pre ++ link ++ post.
Proof. apply image_link_shape. Qed.

Lemma image_links_well_formed_witness :
  exists u v pre post,
    py "https://pic1.zhimg.com/v2-ab.jpg"
    = py "https://" ++ u ++ py "zhimg.com/" ++ v ++ py ".jpg"
    /\ ~ In nl u /\ ~ In nl v
    /\ py "see ![](https://pic1.zhimg.com/v2-ab.jpg) here"
       = pre ++ py "https://pic1.zhimg.com/v2-ab.jpg" ++ post.
Proof.
  apply (image_links_well_formed
           (py "see ![](https://pic1.zhimg.com/v2-ab.jpg) here")
           (py "https://pic1.zhimg.com/v2-ab.jpg")).
  left. reflexivity.
Defined.







(** ** [process_markdown]: a text without a link *)

Lemma contains_cons_false (needle : str) (c : char) (r : str) :
  contains needle (c :: r) = false ->
  startswith needle (c :: r) = false /\ contains needle r = false.
Proof. cbn [contains]. intros H. now apply orb_false_iff in H. Qed.

Lemma contains_false_head (needle s : str) :
  contains needle s = false -> startswith needle s = false.
Proof.
  destruct s as [|c r]; cbn [contains]; intros H;
    now apply orb_false_iff in H.
Qed.

Lemma startswith_app_false (x y s : str) :
  startswith x s = false -> startswith (x ++ y) s = false.
Proof.
  unfold startswith. intros H.
  destruct (strip_prefix (x ++ y) s) as [rest|] eqn:Hp; [|reflexivity].
  apply strip_prefix_spec in Hp. rewrite <- app_assoc in Hp.
  apply strip_prefix_spec in Hp. now rewrite Hp in H.
Qed.

Lemma match_lazy3_no_prefix (a b c s : str) :
  startswith a s = false -> match_lazy3 a b c s = None.
Proof.
  unfold startswith, match_lazy3.
  now destruct (strip_prefix a s).
Qed.

Lemma no_link_matches (s : str) :
  contains (py "https://") s = false ->
  findall_with match_image_link 0 s = []
  /\ sub_with match_search_link 0 s = s.
Proof.
  induction s as [|c r IH]; intros H; [now split|].
  apply contains_cons_false in H. destruct H as [Hhead Hrest].
  destruct (IH Hrest) as [IH1 IH2].
  assert (Himage : match_image_link (c :: r) = None)
    by now apply match_lazy3_no_prefix.
  assert (Hsearch : match_search_link (c :: r) = None).
  { apply match_lazy3_no_prefix.
    change (py "(https://zhida.zhihu.com/search?content_id=")
      with ([40%N] ++ py "https://" ++ py "zhida.zhihu.com/search?content_id=").
    unfold startswith. cbn [app strip_prefix].
    destruct (40 =? c)%N; [|reflexivity].
    apply (startswith_app_false (py "https://")
             (py "zhida.zhihu.com/search?content_id=")).
    now apply contains_false_head. }
  cbn [findall_with sub_with]. rewrite Himage, Hsearch, IH1, IH2. now split.
Qed.

(** X3: [process_markdown] returns a text in which [https://] does not occur as
    it is, with an empty list of links. *)
Theorem process_markdown_without_link (markdown_output : str) :
  contains (py "https://") markdown_output = false ->
  process_markdown markdown_output = (markdown_output, []).
Proof.
  intros H. unfold process_markdown.
  destruct (no_link_matches markdown_output H) as [Hf Hs].
  rewrite Hf. cbn [replace_links]. now rewrite Hs.
Qed.

Lemma process_markdown_without_link_witness :
  process_markdown (py "# Title" ++ [nl; nl] ++ py "Plain text (no link).")
  = (py "# Title" ++ [nl; nl] ++ py "Plain text (no link).", []).
Proof.
  apply process_markdown_without_link. reflexivity.
Defined.

(** ** The index written by [process_markdown] and read by the classifier *)

Lemma py_string_cons (a : ascii) (s : string) :
  py (String a s) = N_of_ascii a :: py s.
Proof. reflexivity. Qed.

Lemma int_digits_uint (d : Decimal.uint) :
  forall a : nat,
    int_digits (Z.of_nat a) (py (NilEmpty.string_of_uint d))
    = Some (Z.of_nat (Nat.of_uint_acc d a)).
Proof.
  induction d; intros a; cbn [NilEmpty.string_of_uint Nat.of_uint_acc];
    [reflexivity|..];
    rewrite py_string_cons; cbn [int_digits];
    match goal with
    | |- context [decimal_value ?c] =>
        let v := eval vm_compute in (decimal_value c) in
        change (decimal_value c) with v
    end;
    rewrite Nat.tail_mul_spec, <- IHd; f_equal; lia.
Qed.

Lemma uint_digits (d : Decimal.uint) :
  Forall (fun c => isdecimal c = true) (py (NilEmpty.string_of_uint d)).
Proof.
  induction d; cbn [NilEmpty.string_of_uint]; [constructor|..];
    rewrite py_string_cons; constructor; try assumption; reflexivity.
Qed.

Lemma to_uint_nonnil (n : nat) : Nat.to_uint n <> Decimal.Nil.
Proof.
  rewrite <- (DecimalNat.Unsigned.of_to n) at 1.
  rewrite DecimalNat.Unsigned.to_of. apply DecimalFacts.unorm_nonnil.
Qed.

Lemma str_of_nat_digits (n : nat) : digits (str_of_nat n).
Proof.
  unfold str_of_nat. split; [|apply uint_digits].
  pose proof (to_uint_nonnil n) as H.
  destruct (Nat.to_uint n); try discriminate. now elim H.
Qed.

Lemma py_int_str_of_nat (n : nat) : py_int (str_of_nat n) = Some (Z.of_nat n).
Proof.
  pose proof (str_of_nat_digits n) as [Hne _].
  unfold py_int. destruct (str_of_nat n) as [|c r] eqn:Hs; [now elim Hne|].
  rewrite <- Hs. unfold str_of_nat.
  change 0%Z with (Z.of_nat 0). rewrite int_digits_uint.
  change (Nat.of_uint_acc (Nat.to_uint n) 0) with (Nat.of_uint (Nat.to_uint n)).
  now rewrite DecimalNat.Unsigned.of_to.
Qed.

(** X4: The text [$i+1$] that [process_markdown] writes for its link number [i],
    inside the image syntax [![](...)], is an image marker.  A segment whose
    first marker it is gets [image_index = i + 1], and [get_segment_visual]
    then takes the link number [i] of [image_links], when there is one. *)
Theorem placeholder_read_back (i : nat) (segment before after : str) :
  segment
  = before ++ py "![](" ++ (py "$" ++ str_of_nat (i + 1) ++ py "$")
      ++ py ")" ++ after ->
  (forall p, p < length before -> ~ marker_at segment p) ->
  exists classified,
    classify segment = Ok classified
    /\ has_image classified = true
    /\ image_index classified = Some (Z.of_nat i + 1)%Z
    /\ forall image_links,
         i < length image_links ->
         article_image_url classified image_links = nth_error image_links i.
Proof.
  intros Hseg Hfirst.
  assert (Hm : first_marker segment before (str_of_nat (i + 1)) after).
  { split; [|split; [apply str_of_nat_digits|assumption]].
    rewrite Hseg. unfold marker. now rewrite <- !app_assoc. }
  apply first_marker_search in Hm.
  unfold classify, int_of_group. rewrite Hm. cbn [group1].
  rewrite py_int_str_of_nat. cbn [bind]. eexists. split; [reflexivity|].
  cbn [has_image image_index]. split; [reflexivity|].
  split; [f_equal; lia|].
  intros image_links Hi. unfold article_image_url. cbn [has_image image_index].
  replace (Z.of_nat (i + 1) - 1)%Z with (Z.of_nat i) by lia.
  rewrite Nat2Z.id.
  assert (H0 : (0 <=? Z.of_nat i)%Z = true) by (apply Z.leb_le; lia).
  assert (H1 : (Z.of_nat i <? Z.of_nat (length image_links))%Z = true)
    by (apply Z.ltb_lt; lia).
  now rewrite H0, H1.
Qed.

Lemma placeholder_read_back_witness :
  exists classified,
    classify (py "Text ![]($12$) more") = Ok classified
    /\ has_image classified = true
    /\ image_index classified = Some (Z.of_nat 11 + 1)%Z
    /\ forall image_links,
         11 < length image_links ->
         article_image_url classified image_links = nth_error image_links 11.
Proof.
  apply (placeholder_read_back 11 (py "Text ![]($12$) more")
           (py "Text ") (py " more")).
  - reflexivity.
  - intros p Hp Hat. apply marker_at_match in Hat.
    destruct Hat as [ds [len Hat]].
    do 5 (destruct p as [|p]; [vm_compute in Hat; discriminate|]).
    simpl in Hp. lia.
Defined.

(** ** [extract_post_info] *)

Lemma startswith_app_self (x r : str) : startswith x (x ++ r) = true.
Proof.
  unfold startswith.
  destruct (strip_prefix x (x ++ r)) eqn:H; [reflexivity|].
  assert (H' : strip_prefix x (x ++ r) = Some r)
    by now apply strip_prefix_spec.
  congruence.
Qed.

Lemma strip_prefix_startswith (x s : str) :
  startswith x s = false -> strip_prefix x s = None.
Proof. unfold startswith. now destruct (strip_prefix x s). Qed.

Lemma contains_false_skipn (x s : str) :
  contains x s = false -> forall k, startswith x (skipn k s) = false.
Proof.
  induction s as [|c r IH]; intros H k.
  - destruct k; cbn [skipn]; now apply contains_false_head.
  - apply contains_cons_false in H. destruct H as [Hhead Hrest].
    destruct k; cbn [skipn]; [assumption|now apply IH].
Qed.

Lemma lstrip_suffix (s : str) : exists k, lstrip s = skipn k s.
Proof.
  induction s as [|c r [k IH]]; [now exists 0|].
  cbn [lstrip]. destruct (isspace c); [|now exists 0].
  now exists (S k).
Qed.

Lemma lazy_group_absent (close s : str) :
  (forall k, startswith close (skipn k s) = false) ->
  forall group, lazy_group close group s = None.
Proof.
  induction s as [|c r IH]; intros H group; cbn [lazy_group].
  - pose proof (H 0) as H0. cbn [skipn] in H0. cbn [lstrip]. now rewrite H0.
  - destruct (lstrip_suffix (c :: r)) as [k ->]. rewrite H.
    apply IH. intros j. apply (H (S j)).
Qed.

Lemma match_between_absent_close (open close s : str) :
  (forall k, startswith close (skipn k s) = false) ->
  match_between open close s = None.
Proof.
  intros H. unfold match_between.
  destruct (strip_prefix open s) as [r|] eqn:Hp; [|reflexivity].
  apply strip_prefix_spec in Hp.
  destruct (lstrip_suffix r) as [k ->].
  apply lazy_group_absent. intros j.
  rewrite skipn_skipn.
  replace (skipn (j + k) r) with (skipn (j + k + length open) s); [apply H|].
  rewrite Hp, skipn_app.
  rewrite (skipn_all2 open) by lia. simpl. f_equal. lia.
Qed.

Lemma search_between_absent (open close s : str) :
  contains open s = false \/ contains close s = false ->
  search_between open close s = None.
Proof.
  induction s as [|c r IH]; intros H.
  - cbn [search_between]. destruct H as [H|H].
    + unfold match_between.
      now rewrite (strip_prefix_startswith _ _ (contains_false_head _ _ H)).
    + rewrite match_between_absent_close; [reflexivity|].
      now apply contains_false_skipn.
  - cbn [search_between].
    assert (Hm : match_between open close (c :: r) = None).
    { destruct H as [H|H].
      - unfold match_between.
        now rewrite (strip_prefix_startswith _ _ (contains_false_head _ _ H)).
      - apply match_between_absent_close. now apply contains_false_skipn. }
    rewrite Hm. apply IH.
    destruct H as [H|H]; apply contains_cons_false in H; tauto.
Qed.

(** X5: Where the page has no title frame ([title_open] or [title_close] does not
    occur) and no content frame, [extract_post_info] returns the document
    made of the two fallback texts. *)
Theorem extract_post_info_fallback (res : str) :
  contains title_open res = false \/ contains title_close res = false ->
  contains content_open res = false \/ contains content_close res = false ->
  extract_post_info res
  = py "# " ++ title_missing ++ [nl; nl] ++ content_missing.
Proof.
  intros Ht Hc. unfold extract_post_info.
  now rewrite (search_between_absent _ _ _ Ht),
    (search_between_absent _ _ _ Hc).
Qed.

Lemma extract_post_info_fallback_witness :
  extract_post_info (title_open ++ py " a page without the other frames")
  = py "# " ++ title_missing ++ [nl; nl] ++ content_missing.
Proof.
  apply extract_post_info_fallback; right; reflexivity.
Defined.

Lemma lstrip_spaces_app (ws s : str) :
  Forall (fun c => isspace c = true) ws -> lstrip (ws ++ s) = lstrip s.
Proof.
  induction 1 as [|c r Hc _ IH]; [reflexivity|].
  cbn [app lstrip]. now rewrite Hc.
Qed.

Lemma lstrip_length (s : str) : length (lstrip s) <= length s.
Proof.
  destruct (lstrip_decompose s) as [ws H].
  rewrite H at 2. rewrite length_app. lia.
Qed.

Lemma lstrip_fixed_head (c : char) (r : str) :
  lstrip (c :: r) = c :: r -> isspace c = false.
Proof.
  cbn [lstrip]. destruct (isspace c); [|reflexivity].
  intros H. pose proof (lstrip_length r) as Hl.
  rewrite H in Hl. simpl in Hl. lia.
Qed.

Lemma lstrip_nonspace_head (c : char) (r : str) :
  isspace c = false -> lstrip (c :: r) = c :: r.
Proof. intros H. cbn [lstrip]. now rewrite H. Qed.

(** A string without whitespace at its ends. *)
Lemma strip_fixed (s : str) :
  strip s = s -> lstrip s = s /\ isspace (last s 0%N) = false.
Proof.
  intros H.
  destruct (lstrip_decompose s) as [l Hl].
  destruct (rstrip_decompose (lstrip s)) as [r [Hr _]].
  fold (strip s) in Hr. rewrite H in Hr.
  assert (Hlen : length s = length l + (length s + length r)).
  { rewrite Hl at 1. rewrite length_app, Hr, length_app. reflexivity. }
  assert (r = []) by (destruct r; [reflexivity|simpl in Hlen; lia]).
  subst r. rewrite app_nil_r in Hr. split; [assumption|].
  unfold strip in H. rewrite Hr in H. unfold rstrip in H.
  apply (f_equal (@rev char)) in H. rewrite rev_involutive in H.
  destruct (rev s) as [|c t] eqn:Hrev.
  - apply (f_equal (@rev char)) in Hrev. rewrite rev_involutive in Hrev.
    now rewrite Hrev.
  - apply (f_equal (@rev char)) in Hrev. rewrite rev_involutive in Hrev.
    rewrite Hrev. simpl. rewrite last_last.
    now apply (lstrip_fixed_head c t).
Qed.

Lemma lstrip_before_last (todo : str) :
  todo <> [] -> isspace (last todo 0%N) = false ->
  forall z, exists j, j < length todo
                      /\ lstrip (todo ++ z) = skipn j (todo ++ z).
Proof.
  induction todo as [|c t IH]; intros Hne Hlast z; [now elim Hne|].
  destruct (isspace c) eqn:Hc.
  - destruct t as [|d t'].
    + simpl in Hlast. congruence.
    + destruct (IH ltac:(discriminate) Hlast z) as [j [Hj Hs]].
      exists (S j). split; [simpl in *; lia|].
      cbn [app lstrip]. rewrite Hc. exact Hs.
  - exists 0. split; [simpl; lia|].
    cbn [app skipn]. now apply lstrip_nonspace_head.
Qed.

Lemma lazy_group_hit (close group s : str) :
  startswith close (lstrip s) = true -> lazy_group close group s = Some group.
Proof. intros H. destruct s; cbn [lazy_group]; now rewrite H. Qed.

Lemma last_tail (c d : char) (t : str) :
  last (c :: d :: t) 0%N = last (d :: t) 0%N.
Proof. reflexivity. Qed.

Lemma lazy_group_body (close ws2 rest : str) (c0 : char) (close' : str) :
  close = c0 :: close' -> isspace c0 = false ->
  Forall (fun c => isspace c = true) ws2 ->
  forall todo done,
    isspace (last todo 0%N) = false ->
    (forall k, k < length todo ->
       startswith close (skipn k (todo ++ ws2 ++ close ++ rest)) = false) ->
    lazy_group close done (todo ++ ws2 ++ close ++ rest) = Some (done ++ todo).
Proof.
  intros Hclose Hc0 Hws2.
  induction todo as [|c t IH]; intros done Hlast Habsent.
  - cbn [app]. rewrite app_nil_r.
    assert (Hl : lstrip (ws2 ++ close ++ rest) = close ++ rest).
    { rewrite lstrip_spaces_app by assumption.
      rewrite Hclose. now apply lstrip_nonspace_head. }
    apply lazy_group_hit. rewrite Hl. apply startswith_app_self.
  - destruct (lstrip_before_last (c :: t) ltac:(discriminate) Hlast
                (ws2 ++ close ++ rest)) as [j [Hj Hs]].
    cbn [app lazy_group].
    match goal with
    | |- (if ?b then _ else _) = _ =>
        replace b with false
          by (symmetry; rewrite <- (Habsent j Hj); f_equal; exact Hs)
    end.
    etransitivity; [apply (IH (done ++ [c]))|].
    + destruct t as [|d t']; [reflexivity|exact Hlast].
    + intros k Hk. apply (Habsent (S k)). simpl. lia.
    + now rewrite <- app_assoc.
Qed.

Lemma search_between_skip (open close : str) (pre s : str) :
  (forall k, k < length pre -> startswith open (skipn k (pre ++ s)) = false) ->
  search_between open close (pre ++ s) = search_between open close s.
Proof.
  induction pre as [|c p IH]; intros H; [reflexivity|].
  cbn [app search_between]. unfold match_between at 1.
  rewrite (strip_prefix_startswith open (c :: p ++ s)
             (H 0 ltac:(simpl; lia))).
  apply IH. intros k Hk. apply (H (S k)). simpl. lia.
Qed.

Lemma search_between_framed (open close text body : str)
      (c0 : char) (close' : str) :
  close = c0 :: close' -> isspace c0 = false ->
  framed open close text body ->
  search_between open close text = Some body.
Proof.
  intros Hclose Hc0 [pre [ws1 [ws2 [rest [Ht [Hpre [H1 [H2 [Hb Hin]]]]]]]]].
  rewrite Ht in Hpre |- *.
  rewrite (search_between_skip open close pre _ Hpre).
  assert (Hm : match_between open close
                 (open ++ ws1 ++ body ++ ws2 ++ close ++ rest) = Some body).
  { unfold match_between.
    assert (Hp : strip_prefix open (open ++ ws1 ++ body ++ ws2 ++ close ++ rest)
                 = Some (ws1 ++ body ++ ws2 ++ close ++ rest))
      by now apply strip_prefix_spec.
    rewrite Hp, lstrip_spaces_app by assumption.
    destruct (strip_fixed body Hb) as [Hl Hlast].
    destruct body as [|b body'].
    - cbn [app]. rewrite lstrip_spaces_app by assumption.
      assert (Hl' : lstrip (close ++ rest) = close ++ rest).
      { rewrite Hclose. now apply lstrip_nonspace_head. }
      rewrite Hl'. apply lazy_group_hit. rewrite Hl'.
      apply startswith_app_self.
    - cbn [app]. rewrite lstrip_nonspace_head
        by now apply (lstrip_fixed_head b body').
      apply (lazy_group_body close ws2 rest c0 close' Hclose Hc0 H2
               (b :: body') [] Hlast Hin). }
  destruct (open ++ ws1 ++ body ++ ws2 ++ close ++ rest) eqn:Hx;
    cbn [search_between]; now rewrite Hm.
Qed.

(** X6: On a page that holds a title frame and a content frame,
    [extract_post_info] returns the document made of the framed title and
    the framed content.  The frame of the title is the first [title_open],
    whitespace, the title, whitespace and the first [title_close] after it;
    the frame of the content likewise. *)
Theorem extract_post_info_framed (res title content : str) :
  framed title_open title_close res title ->
  framed content_open content_close res content ->
  extract_post_info res = py "# " ++ title ++ [nl; nl] ++ content.
Proof.
  intros Ht Hc. unfold extract_post_info.
  rewrite (search_between_framed title_open title_close res title
             _ _ eq_refl eq_refl Ht).
  rewrite (search_between_framed content_open content_close res content
             _ _ eq_refl eq_refl Hc).
  destruct Ht as [_ [_ [_ [_ [_ [_ [_ [_ [-> _]]]]]]]]].
  destruct Hc as [_ [_ [_ [_ [_ [_ [_ [_ [-> _]]]]]]]]].
  reflexivity.
Qed.

Ltac below :=
  let k := fresh "k" in
  let Hk := fresh "Hk" in
  intros k Hk; repeat (destruct k as [|k]; [reflexivity|]); simpl in Hk; lia.

Lemma extract_post_info_framed_witness :
  extract_post_info example_page
  = py "# " ++ py "My title" ++ [nl; nl] ++ py "Body text.".
Proof.
  apply (extract_post_info_framed example_page (py "My title")
           (py "Body text.")).
  - exists (py "Home "), [space; nl], [space],
      (py " by " ++ content_open ++ [nl] ++ py "Body text."
         ++ [nl] ++ content_close ++ py " 2024").
    split; [reflexivity|]. split; [below|].
    split; [repeat constructor|]. split; [repeat constructor|].
    split; [reflexivity|below].
  - exists (py "Home " ++ title_open ++ [space; nl] ++ py "My title" ++ [space]
              ++ title_close ++ py " by "), [nl], [nl], (py " 2024").
    split; [reflexivity|]. split; [below|].
    split; [repeat constructor|]. split; [repeat constructor|].
    split; [reflexivity|below].
Defined.

(** ** Segments are never empty and carry no whitespace at their ends *)

Lemma lstrip_idem (s : str) : lstrip (lstrip s) = lstrip s.
Proof.
  induction s as [|c r IH]; [reflexivity|].
  cbn [lstrip]. destruct (isspace c) eqn:Hc; [assumption|].
  cbn [lstrip]. now rewrite Hc.
Qed.

Lemma rstrip_idem (s : str) : rstrip (rstrip s) = rstrip s.
Proof. unfold rstrip. now rewrite rev_involutive, lstrip_idem. Qed.

Lemma lstrip_rstrip_lstrip (s : str) :
  lstrip (rstrip (lstrip s)) = rstrip (lstrip s).
Proof.
  destruct (lstrip s) as [|c r] eqn:Hl; [reflexivity|].
  assert (Hc : isspace c = false).
  { apply (lstrip_fixed_head c r). rewrite <- Hl. apply lstrip_idem. }
  destruct (strip_head c r Hc) as [r' Hr]. unfold strip in Hr.
  cbn [lstrip] in Hr. rewrite Hc in Hr. rewrite Hr.
  now apply lstrip_nonspace_head.
Qed.

Lemma strip_idem (s : str) : strip (strip s) = strip s.
Proof.
  unfold strip at 1 2. rewrite lstrip_rstrip_lstrip. apply rstrip_idem.
Qed.

Lemma nonblank_nonempty (s : str) : nonblank s -> s <> [].
Proof. intros H ->. now apply H. Qed.

Lemma strip_trimmed (s : str) : nonblank s -> trimmed (strip s).
Proof.
  intros H. split; [|apply strip_idem].
  intros Hs. apply strip_nil_iff in Hs. now apply H.
Qed.

Lemma truthy_strip_trimmed (s : str) :
  truthy (strip s) = true -> trimmed (strip s).
Proof.
  intros H. apply strip_trimmed. intros Hn.
  apply strip_nil_iff in Hn. rewrite Hn in H. discriminate.
Qed.

Lemma trimmed_nonblank (s : str) : trimmed s -> nonblank s.
Proof.
  intros [Hne Hs] Hn. apply strip_nil_iff in Hn. rewrite Hs in Hn.
  now apply Hne.
Qed.

Lemma nonblank_app_r (a b : str) : nonblank b -> nonblank (a ++ b).
Proof.
  unfold nonblank. rewrite nows_app. intros H Hn.
  apply app_eq_nil in Hn. now apply H.
Qed.

Lemma splitter_step_trimmed (max_words : Z) st sentence :
  splitter_trimmed st ->
  splitter_trimmed (SplitLongText.step max_words st sentence).
Proof.
  intros [Hsegs Hcur]. unfold SplitLongText.step, splitter_trimmed.
  destruct st as [segs cur cnt].
  cbn [SplitLongText.segments SplitLongText.current_segment
       SplitLongText.current_word_count] in *.
  destruct (truthy (strip sentence)) eqn:Hs; cbn [negb]; [|now split].
  pose proof (truthy_strip_trimmed sentence Hs) as Hsent.
  assert (Hflush : cur <> [] -> trimmed (strip cur)).
  { intros Hne. apply strip_trimmed. now destruct Hcur. }
  destruct (word_count (strip sentence) >? max_words)%Z.
  - destruct cur as [|c cur'];
      cbn [truthy SplitLongText.segments SplitLongText.current_segment
           SplitLongText.current_word_count].
    + split; [now apply Forall_snoc|now left].
    + split; [|now left].
      apply Forall_snoc; [apply Forall_snoc|]; try assumption.
      now apply Hflush.
  - destruct (cnt + word_count (strip sentence) >? max_words)%Z;
      cbn [SplitLongText.segments SplitLongText.current_segment
           SplitLongText.current_word_count].
    + split; [|right; now apply trimmed_nonblank].
      destruct cur as [|c cur']; cbn [truthy]; [assumption|].
      apply Forall_snoc; [assumption|now apply Hflush].
    + split; [assumption|]. right.
      destruct cur as [|c cur']; cbn [truthy].
      * now apply trimmed_nonblank.
      * apply nonblank_app_r, nonblank_app_r. now apply trimmed_nonblank.
Qed.

Lemma split_long_text_trimmed (text : str) (max_words : Z) :
  Forall trimmed (split_long_text text max_words).
Proof.
  unfold split_long_text.
  assert (Hinv : splitter_trimmed
                   (fold_left (SplitLongText.step max_words) (sentences_of text)
                      SplitLongText.init)).
  { apply fold_invariant.
    - intros st x _. apply splitter_step_trimmed.
    - split; [constructor|now left]. }
  destruct Hinv as [Hsegs _]. unfold SplitLongText.finish.
  destruct (truthy (strip (SplitLongText.current_segment _))) eqn:Hs;
    [|assumption].
  apply Forall_snoc; [assumption|now apply truthy_strip_trimmed].
Qed.

Lemma packer_step_trimmed (max_words : Z) st line :
  nonblank line -> packer_trimmed st ->
  packer_trimmed (Packer.step max_words st line).
Proof.
  intros Hline [Hsegs Hcur]. unfold Packer.step, packer_trimmed.
  destruct st as [segs cur cnt].
  cbn [Packer.segments Packer.current_segment Packer.current_words] in *.
  assert (Hflush : cur <> [] -> trimmed (strip cur)).
  { intros Hne. apply strip_trimmed. now destruct Hcur. }
  destruct (word_count line >? max_words)%Z.
  - destruct cur as [|c cur'];
      cbn [truthy Packer.segments Packer.current_segment Packer.current_words].
    + split; [|now left].
      apply Forall_app. split; [assumption|apply split_long_text_trimmed].
    + split; [|now left].
      apply Forall_app. split; [|apply split_long_text_trimmed].
      apply Forall_snoc; [assumption|now apply Hflush].
  - destruct (cnt + word_count line >? max_words)%Z;
      cbn [Packer.segments Packer.current_segment Packer.current_words].
    + split; [|now right].
      destruct cur as [|c cur']; cbn [truthy]; [assumption|].
      apply Forall_snoc; [assumption|now apply Hflush].
    + split; [assumption|]. right.
      destruct cur as [|c cur']; cbn [truthy]; [assumption|].
      now apply nonblank_app_r, nonblank_app_r.
Qed.

Lemma pack_block_trimmed (max_words : Z) (segments : list str) (block : str) :
  Forall nonblank (split_on nl (strip block)) ->
  Forall trimmed segments ->
  Forall trimmed (Packer.pack_block max_words segments block).
Proof.
  intros Hlines Hsegs. unfold Packer.pack_block.
  destruct (truthy (strip block)) eqn:Hb; cbn [negb]; [|assumption].
  destruct (word_count (strip block) <=? max_words)%Z.
  { apply Forall_snoc; [assumption|now apply truthy_strip_trimmed]. }
  destruct (existsb _ _).
  - assert (Hinv : packer_trimmed
                     (fold_left (Packer.step max_words)
                        (split_on nl (strip block)) (Packer.mk segments [] 0))).
    { apply fold_invariant.
      - intros st line Hin. apply packer_step_trimmed.
        rewrite Forall_forall in Hlines. now apply Hlines.
      - split; [assumption|now left]. }
    destruct Hinv as [Hs _]. unfold Packer.finish.
    destruct (truthy (strip (Packer.current_segment _))) eqn:Hc;
      [|assumption].
    apply Forall_snoc; [assumption|now apply truthy_strip_trimmed].
  - apply Forall_app. split; [assumption|apply split_long_text_trimmed].
Qed.

Lemma nonblank_cons (c : char) (w : str) :
  nonblank (c :: w) <-> isspace c = false \/ nonblank w.
Proof.
  unfold nonblank. destruct (isspace c) eqn:Hc.
  - rewrite (nows_space_cons c w Hc). split; [now right|].
    now intros [H|H].
  - rewrite (nows_nonspace_cons c w Hc). split; [now left|discriminate].
Qed.

Lemma lines_nonblank_spec (s : str) :
  forall seen,
    lines_nonblank seen s = true
    <-> exists w ws, split_on nl s = w :: ws
                     /\ (seen = true \/ nonblank w) /\ Forall nonblank ws.
Proof.
  induction s as [|c r IH]; intros seen.
  - cbn [lines_nonblank split_on]. split.
    + intros ->. exists [], []. split; [reflexivity|]. split; [now left|constructor].
    + intros [w [ws [Heq [[H|H] _]]]]; [assumption|].
      injection Heq as <- _. now elim H.
  - cbn [lines_nonblank split_on]. destruct (c =? nl)%N eqn:Hc.
    + rewrite andb_true_iff, IH. split.
      * intros [-> [w [ws [Heq [[H|H] Hws]]]]]; [discriminate|].
        exists [], (split_on nl r). split; [reflexivity|].
        split; [now left|]. rewrite Heq. now constructor.
      * intros [w [ws [Heq [Hw Hws]]]]. injection Heq as <- <-.
        destruct Hw as [Hw|Hw]; [|now elim Hw]. split; [assumption|].
        destruct (split_on_cons nl r) as [w' [ws' Hr]]. rewrite Hr in Hws.
        inversion Hws; subst. exists w', ws'. split; [assumption|].
        split; [now right|assumption].
    + rewrite IH. destruct (split_on_cons nl r) as [w' [ws' Hr]]. rewrite Hr.
      split.
      * intros [w [ws [Heq [Hw Hws]]]]. injection Heq as <- <-.
        exists (c :: w'), ws'. split; [reflexivity|]. split; [|assumption].
        destruct Hw as [Hw|Hw].
        -- apply orb_true_iff in Hw. destruct Hw as [Hw|Hw]; [now left|].
           right. apply nonblank_cons. left. now apply negb_true_iff.
        -- right. apply nonblank_cons. now right.
      * intros [w [ws [Heq [Hw Hws]]]]. injection Heq as <- <-.
        exists w', ws'. split; [reflexivity|]. split; [|assumption].
        destruct Hw as [Hw|Hw]; [left; now rewrite Hw|].
        apply nonblank_cons in Hw. destruct Hw as [Hw|Hw]; [|now right].
        left. rewrite Hw. apply orb_true_r.
Qed.

Lemma lines_nonblank_iff (s : str) :
  lines_nonblank false s = true <-> Forall nonblank (split_on nl s).
Proof.
  rewrite lines_nonblank_spec. split.
  - intros [w [ws [-> [[H|H] Hws]]]]; [discriminate|]. now constructor.
  - intros H. destruct (split_on_cons nl s) as [w [ws Hs]]. rewrite Hs in H.
    inversion H; subst. exists w, ws. split; [assumption|].
    split; [now right|assumption].
Qed.

Lemma lines_nonblank_lstrip (s : str) :
  lines_nonblank false s = true -> lines_nonblank false (lstrip s) = true.
Proof.
  induction s as [|c r IH]; [trivial|].
  cbn [lstrip]. destruct (isspace c) eqn:Hc; [|trivial].
  cbn [lines_nonblank]. rewrite Hc. destruct (c =? nl)%N; [discriminate|].
  exact IH.
Qed.

Lemma lines_nonblank_spaces (ws : str) :
  Forall (fun c => isspace c = true) ws ->
  forall seen, lines_nonblank seen ws = true -> seen = true.
Proof.
  induction 1 as [|c r Hc _ IH]; intros seen; [trivial|].
  cbn [lines_nonblank]. rewrite Hc. destruct (c =? nl)%N.
  - intros H. now apply andb_true_iff in H.
  - intros H. apply IH in H. now rewrite orb_false_r in H.
Qed.

Lemma lines_nonblank_app_spaces (s ws : str) :
  Forall (fun c => isspace c = true) ws ->
  forall seen,
    lines_nonblank seen (s ++ ws) = true -> lines_nonblank seen s = true.
Proof.
  intros Hws. induction s as [|c r IH]; intros seen.
  - cbn [app lines_nonblank]. now apply lines_nonblank_spaces.
  - cbn [app lines_nonblank]. destruct (c =? nl)%N.
    + rewrite !andb_true_iff. intros [-> H]. split; [reflexivity|now apply IH].
    + apply IH.
Qed.

Lemma lines_nonblank_strip (s : str) :
  lines_nonblank false s = true -> lines_nonblank false (strip s) = true.
Proof.
  intros H. apply lines_nonblank_lstrip in H.
  destruct (rstrip_decompose (lstrip s)) as [ws [Hs Hws]].
  rewrite Hs in H. unfold strip.
  now apply (lines_nonblank_app_spaces _ ws Hws).
Qed.

Lemma grouper_step_nonblank st line :
  no_newline line -> grouper_nonblank st ->
  grouper_nonblank (Grouper.step st line).
Proof.
  intros Hline [Hblocks [Hnl Hcur]]. unfold Grouper.step, grouper_nonblank.
  destruct st as [blocks cur]. cbn [Grouper.blocks Grouper.current_block] in *.
  assert (Hflush : cur <> [] ->
            Forall (fun b => lines_nonblank false b = true)
              (blocks ++ [join [nl] cur])).
  { intros Hne. apply Forall_snoc; [assumption|].
    apply lines_nonblank_iff. now rewrite split_on_join. }
  destruct (truthy (strip line)) eqn:Hs; cbn [negb].
  - pose proof (truthy_strip_trimmed line Hs) as Ht.
    assert (Hnb : nonblank line).
    { apply trimmed_nonblank in Ht. unfold nonblank in *.
      now rewrite nows_strip in Ht. }
    assert (Hstripped : lines_nonblank false (strip line) = true).
    { apply lines_nonblank_iff. rewrite split_on_line.
      - constructor; [now apply trimmed_nonblank|constructor].
      - intros H. apply Hline. now apply strip_incl. }
    destruct (startswith (py "#") (strip line)).
    + destruct cur as [|l cur']; cbn [truthy Grouper.blocks Grouper.current_block].
      * split; [now apply Forall_snoc|]. split; assumption.
      * split; [apply Forall_snoc; [apply Hflush; discriminate|assumption]|].
        split; constructor.
    + destruct (is_bullet (strip line)).
      * destruct (Grouper.last_is_plain cur) eqn:Hlast;
          cbn [Grouper.blocks Grouper.current_block].
        -- split; [apply Hflush; intros ->; discriminate|].
           split; now repeat constructor.
        -- split; [assumption|]. split; now apply Forall_snoc.
      * cbn [Grouper.blocks Grouper.current_block].
        split; [assumption|]. split; now apply Forall_snoc.
  - destruct cur as [|l cur']; cbn [truthy Grouper.blocks Grouper.current_block].
    + repeat split; assumption.
    + split; [apply Hflush; discriminate|]. split; constructor.
Qed.

Lemma group_blocks_nonblank (text : str) :
  Forall (fun b => lines_nonblank false b = true) (group_blocks text).
Proof.
  unfold group_blocks.
  set (lines := split_on nl (strip text)).
  assert (Hinv : grouper_nonblank (fold_left Grouper.step lines Grouper.init)).
  { apply fold_invariant.
    - intros st line Hl. apply grouper_step_nonblank.
      pose proof (split_on_no_sep nl (strip text)) as Hall.
      rewrite Forall_forall in Hall. now apply Hall.
    - split; [constructor|]. split; constructor. }
  destruct Hinv as [Hblocks [Hnl Hcur]]. unfold Grouper.finish.
  destruct (Grouper.current_block _) as [|l cur'] eqn:Hc;
    cbn [truthy]; [assumption|].
  apply Forall_snoc; [assumption|].
  apply lines_nonblank_iff. rewrite split_on_join; [assumption|discriminate|].
  assumption.
Qed.

Lemma pack_blocks_trimmed (blocks : list str) (max_words : Z) :
  Forall (fun b => lines_nonblank false b = true) blocks ->
  Forall trimmed (pack_blocks blocks max_words).
Proof.
  intros Hblocks. unfold pack_blocks.
  apply (fold_invariant _ _ (Packer.pack_block max_words) (Forall trimmed));
    [|constructor].
  intros segs block Hin Hsegs. apply pack_block_trimmed; [|assumption].
  apply lines_nonblank_iff, lines_nonblank_strip.
  rewrite Forall_forall in Hblocks. now apply Hblocks.
Qed.

Lemma relocate_step_trimmed (final_segments : list str) (segment : str) :
  trimmed segment -> Forall trimmed final_segments ->
  Forall trimmed (relocate_step final_segments segment).
Proof.
  intros Hseg Hfinal. unfold relocate_step.
  destruct (re_search segment) as [m|]; [|now apply Forall_snoc].
  destruct (truthy (strip (firstn (m_end m) segment))) eqn:Hb;
    destruct (truthy (strip (skipn (m_end m) segment))) eqn:Ha;
    repeat (apply Forall_snoc); try assumption;
    now apply truthy_strip_trimmed.
Qed.

Lemma relocate_trimmed (segments : list str) :
  Forall trimmed segments -> Forall trimmed (relocate segments).
Proof.
  intros Hsegs. unfold relocate.
  apply (fold_invariant _ _ relocate_step (Forall trimmed)); [|constructor].
  intros final segment Hin Hfinal. apply relocate_step_trimmed; [|assumption].
  rewrite Forall_forall in Hsegs. now apply Hsegs.
Qed.

Lemma segments_trimmed_all (text : str) (max_words : Z) :
  Forall trimmed (split_markdown_for_video_with_image_split text max_words).
Proof.
  unfold split_markdown_for_video_with_image_split.
  apply relocate_trimmed, pack_blocks_trimmed, group_blocks_nonblank.
Qed.

(** X7: Whatever the text and the budget, no segment that
    [split_markdown_for_video_with_image_split] returns is empty, and none
    has whitespace at its start or at its end. *)
Theorem segments_trimmed (text : str) (max_words : Z) :
  Forall (fun segment => segment <> [] /\ strip segment = segment)
    (split_markdown_for_video_with_image_split text max_words).
Proof. apply segments_trimmed_all. Qed.

(** ** Which raw segments become script segments *)







(** ** The text of a script segment is normalised *)












(** ** Header lines are blocks of their own *)








Lemma grouper_header_kept (lines : list str) (line : str) :
  In line lines -> startswith (py "#") (strip line) = true ->
  forall st, In (strip line) (Grouper.finish (fold_left Grouper.step lines st)).
Proof.
  induction lines as [|l ls IH]; intros Hin Hh st; [contradiction|].
  cbn [fold_left]. destruct Hin as [->|Hin]; [|now apply IH].
  destruct (grouper_fold_blocks ls (Grouper.step st line)) as [extra ->].
  apply in_app_iff. left.
  unfold Grouper.step. rewrite Hh.
  assert (Ht : truthy (strip line) = true).
  { apply startswith_hash_iff in Hh. destruct Hh as [r ->]. reflexivity. }
  rewrite Ht. cbn [negb Grouper.blocks].
  apply in_app_iff. right. now left.
Qed.

(** X12: Every line of the text that starts with [#], whitespace apart, is a block
    of the grouper, without the whitespace at its ends. *)
Theorem header_line_is_block (text line : str) :
  In line (split_on nl (strip text)) ->
  startswith (py "#") (strip line) = true ->
  In (strip line) (group_blocks text).
Proof.
  intros Hin Hh. unfold group_blocks. now apply grouper_header_kept.
Qed.

Lemma header_line_is_block_witness :
  In (strip (py "  ## Part two "))
     (group_blocks
        (py "intro" ++ [nl] ++ py "  ## Part two " ++ [nl] ++ py "more")).
Proof.
  apply (header_line_is_block
           (py "intro" ++ [nl] ++ py "  ## Part two " ++ [nl] ++ py "more")
           (py "  ## Part two ")).
  - right. left. reflexivity.
  - reflexivity.
Defined.

(** ** [process_markdown] numbers the links in place *)

Lemma strip_prefix_app_indep (needle : str) :
  forall t y, length needle <= length t ->
    strip_prefix needle (t ++ y)
    = option_map (fun r => r ++ y) (strip_prefix needle t).
Proof.
  induction needle as [|a n IH]; intros t y Hlen; [reflexivity|].
  destruct t as [|x t']; [simpl in Hlen; lia|].
  cbn [app strip_prefix]. destruct (a =? x)%N; [|reflexivity].
  apply IH. simpl in Hlen. lia.
Qed.

Lemma startswith_app_indep (needle t y : str) :
  length needle <= length t ->
  startswith needle (t ++ y) = startswith needle t.
Proof.
  intros H. unfold startswith. rewrite strip_prefix_app_indep by assumption.
  now destruct (strip_prefix needle t).
Qed.

Lemma strip_prefix_short (t : str) :
  forall needle z r,
    strip_prefix needle (t ++ z) = Some r -> length t <= length needle ->
    exists n2, needle = t ++ n2.
Proof.
  induction t as [|x t' IH]; intros needle z r H Hlen; [now exists needle|].
  destruct needle as [|a n]; [simpl in Hlen; lia|].
  cbn [app strip_prefix] in H. destruct (a =? x)%N eqn:Hax; [|discriminate].
  apply N.eqb_eq in Hax. subst x.
  destruct (IH n z r H) as [n2 ->]; [simpl in Hlen; lia|]. now exists n2.
Qed.

Lemma lazy_to_hit (needle s : str) :
  startswith needle s = true -> lazy_to needle s = Some (length needle).
Proof. intros H. destruct s; cbn [lazy_to]; now rewrite H. Qed.

Lemma lazy_to_ge (needle s : str) (n : nat) :
  lazy_to needle s = Some n -> length needle <= n.
Proof.
  intros H. apply lazy_to_spec in H. destruct H as [u [rest [_ [-> _]]]]. lia.
Qed.

Lemma lazy_to_complete (needle rest : str) (u : str) :
  ~ In nl u ->
  exists n, lazy_to needle (u ++ needle ++ rest) = Some n
            /\ n <= length u + length needle.
Proof.
  induction u as [|x u' IH]; intros Hu.
  - exists (length needle). split; [|simpl; lia].
    cbn [app]. apply lazy_to_hit. apply startswith_app_self.
  - cbn [app lazy_to].
    destruct (startswith needle (x :: u' ++ needle ++ rest)).
    + exists (length needle). split; [reflexivity|simpl; lia].
    + assert (Hx : (x =? nl)%N = false).
      { apply N.eqb_neq. intros ->. apply Hu. now left. }
      rewrite Hx. destruct IH as [n [-> Hn]]; [intros H; apply Hu; now right|].
      exists (S n). split; [reflexivity|simpl; lia].
Qed.

(** What the search for [needle] has found within [t] does not depend on
    what follows [t]; otherwise it has passed [t], which then holds no
    newline. *)
Lemma lazy_to_app (needle : str) (t : str) :
  ~ In nl needle ->
  forall z n,
    lazy_to needle (t ++ z) = Some n ->
    (n <= length t /\ forall y, lazy_to needle (t ++ y) = Some n)
    \/ ~ In nl t.
Proof.
  intros Hneedle. induction t as [|x t' IH]; intros z n H; [now right|].
  destruct (Nat.le_gt_cases (length needle) (length (x :: t'))) as [Hle|Hgt].
  - cbn [app lazy_to] in H.
    change (x :: t' ++ z) with ((x :: t') ++ z) in H.
    rewrite startswith_app_indep in H by assumption.
    destruct (startswith needle (x :: t')) eqn:Hs.
    + injection H as <-. left. split; [assumption|]. intros y.
      apply lazy_to_hit. now rewrite startswith_app_indep.
    + destruct (x =? nl)%N eqn:Hx; [discriminate|].
      destruct (lazy_to needle (t' ++ z)) as [n'|] eqn:Hn; [|discriminate].
      injection H as <-.
      destruct (IH z n' Hn) as [[Hn' Hall]|Hnl].
      * left. split; [simpl; lia|]. intros y. cbn [app lazy_to].
        change (x :: t' ++ y) with ((x :: t') ++ y).
        rewrite startswith_app_indep by assumption.
        now rewrite Hs, Hx, Hall.
      * right. apply N.eqb_neq in Hx. intros [Heq|Hin]; [now apply Hx|].
        now apply Hnl.
  - cbn [app lazy_to] in H.
    destruct (startswith needle (x :: t' ++ z)) eqn:Hs.
    + right. unfold startswith in Hs.
      destruct (strip_prefix needle (x :: t' ++ z)) as [r|] eqn:Hp;
        [|discriminate].
      destruct (strip_prefix_short (x :: t') needle z r Hp) as [n2 Hn2]; [lia|].
      intros Hin. apply Hneedle. rewrite Hn2. apply in_app_iff. now left.
    + destruct (x =? nl)%N eqn:Hx; [discriminate|].
      destruct (lazy_to needle (t' ++ z)) as [n'|] eqn:Hn; [|discriminate].
      injection H as <-.
      destruct (IH z n' Hn) as [[Hn' _]|Hnl].
      * apply lazy_to_ge in Hn. simpl in Hgt. lia.
      * right. apply N.eqb_neq in Hx. intros [Heq|Hin]; [now apply Hx|].
        now apply Hnl.
Qed.

Lemma skipn_app_le {A : Type} (n : nat) (l1 l2 : list A) :
  n <= length l1 -> skipn n (l1 ++ l2) = skipn n l1 ++ l2.
Proof.
  intros H. rewrite skipn_app.
  replace (n - length l1) with 0 by lia. reflexivity.
Qed.

Lemma skipn_incl {A : Type} (n : nat) (l : list A) (x : A) :
  In x (skipn n l) -> In x l.
Proof.
  intros H. rewrite <- (firstn_skipn n l). apply in_app_iff. now right.
Qed.

(** [b] and then [c] are found after a stretch without a newline. *)
Lemma lazy2_complete (b c w v rest : str) :
  ~ In nl w -> ~ In nl b -> ~ In nl v ->
  exists n1 n2,
    lazy_to b (w ++ b ++ v ++ c ++ rest) = Some n1
    /\ lazy_to c (skipn n1 (w ++ b ++ v ++ c ++ rest)) = Some n2.
Proof.
  intros Hw Hb Hv.
  destruct (lazy_to_complete b (v ++ c ++ rest) w Hw) as [n1 [H1 Hn1]].
  exists n1.
  replace (w ++ b ++ v ++ c ++ rest) with ((w ++ b ++ v) ++ c ++ rest) in *
    by now rewrite <- !app_assoc.
  rewrite skipn_app_le by (rewrite !length_app; lia).
  destruct (lazy_to_complete c rest (skipn n1 (w ++ b ++ v))) as [n2 [H2 _]].
  - intros Hin. apply skipn_incl in Hin.
    rewrite !in_app_iff in Hin. tauto.
  - now exists n2.
Qed.

Lemma match_lazy3_complete (a b c u v rest : str) :
  ~ In nl u -> ~ In nl b -> ~ In nl v ->
  match_lazy3 a b c (a ++ u ++ b ++ v ++ c ++ rest) <> None.
Proof.
  intros Hu Hb Hv. unfold match_lazy3.
  assert (Hp : strip_prefix a (a ++ u ++ b ++ v ++ c ++ rest)
               = Some (u ++ b ++ v ++ c ++ rest)) by now apply strip_prefix_spec.
  rewrite Hp.
  destruct (lazy2_complete b c u v rest Hu Hb Hv) as [n1 [n2 [-> ->]]].
  discriminate.
Qed.

Lemma strip_prefix_app_l (a : str) :
  forall t d z r,
    strip_prefix a (t ++ d :: z) = Some r -> ~ In d a ->
    exists t1, t = a ++ t1 /\ r = t1 ++ d :: z.
Proof.
  induction a as [|x a' IH]; intros t d z r H Hd.
  - injection H as <-. now exists t.
  - destruct t as [|y t']; cbn [app strip_prefix] in H.
    + destruct (x =? d)%N eqn:Hx; [|discriminate].
      apply N.eqb_eq in Hx. exfalso. apply Hd. now left.
    + destruct (x =? y)%N eqn:Hx; [|discriminate].
      apply N.eqb_eq in Hx. subst y.
      destruct (IH t' d z r H) as [t1 [-> ->]]; [intros Hin; apply Hd; now right|].
      now exists t1.
Qed.

(** A match that starts before a placeholder starts there as well when the
    placeholder gives way to the link it stands for. *)
Lemma match_expand (a b c t r u v : str) (d : char) (ph : str) :
  ~ In nl a -> ~ In nl b -> ~ In nl c -> ~ In nl u -> ~ In nl v -> ~ In d a ->
  match_lazy3 a b c (t ++ (d :: ph) ++ r) <> None ->
  match_lazy3 a b c (t ++ (a ++ u ++ b ++ v ++ c) ++ r) <> None.
Proof.
  intros Ha Hb Hc Hu Hv Hd Hm. unfold match_lazy3 in *.
  destruct (strip_prefix a (t ++ (d :: ph) ++ r)) as [x1|] eqn:Hp;
    [|now elim Hm].
  destruct (strip_prefix_app_l a t d (ph ++ r) x1 Hp Hd) as [t1 [-> ->]].
  assert (Hp' : strip_prefix a ((a ++ t1) ++ (a ++ u ++ b ++ v ++ c) ++ r)
                = Some (t1 ++ (a ++ u ++ b ++ v ++ c) ++ r)).
  { apply strip_prefix_spec. now rewrite <- app_assoc. }
  rewrite Hp'.
  destruct (lazy_to b (t1 ++ d :: ph ++ r)) as [n1|] eqn:H1; [|now elim Hm].
  destruct (lazy_to c (skipn n1 (t1 ++ d :: ph ++ r))) as [n2|] eqn:H2;
    [|now elim Hm].
  destruct (lazy_to_app b t1 Hb _ _ H1) as [[Hle Hall]|Hnl1].
  - rewrite Hall. rewrite skipn_app_le in H2 |- * by assumption.
    destruct (lazy_to_app c (skipn n1 t1) Hc _ _ H2) as [[_ Hall2]|Hnl2].
    + rewrite Hall2. discriminate.
    + replace (skipn n1 t1 ++ (a ++ u ++ b ++ v ++ c) ++ r)
        with ((skipn n1 t1 ++ a ++ u ++ b ++ v) ++ c ++ r)
        by now rewrite <- !app_assoc.
      destruct (lazy_to_complete c r (skipn n1 t1 ++ a ++ u ++ b ++ v))
        as [n [-> _]]; [|discriminate].
      rewrite !in_app_iff. tauto.
  - replace (t1 ++ (a ++ u ++ b ++ v ++ c) ++ r)
      with ((t1 ++ a ++ u) ++ b ++ v ++ c ++ r)
      by now rewrite <- !app_assoc.
    destruct (lazy2_complete b c (t1 ++ a ++ u) v r) as [n1' [n2' [-> ->]]];
      try assumption; [|discriminate].
    rewrite !in_app_iff. tauto.
Qed.

Lemma replace_first_in_place (old new : str) (done rest : str) :
  old <> [] ->
  (forall p, p < length done ->
     strip_prefix old (skipn p (done ++ old ++ rest)) = None) ->
  replace_first old new (done ++ old ++ rest) = done ++ new ++ rest.
Proof.
  intros Hold. induction done as [|x done' IH]; intros H.
  - cbn [app].
    assert (Hp : strip_prefix old (old ++ rest) = Some rest)
      by now apply strip_prefix_spec.
    destruct (old ++ rest) eqn:Ho; cbn [replace_first]; now rewrite Hp.
  - pose proof (H 0 ltac:(simpl; lia)) as H0. cbn [skipn app] in H0.
    cbn [app replace_first]. rewrite H0. f_equal.
    apply IH. intros p Hp. apply (H (S p)). simpl. lia.
Qed.

Lemma findall_with_skip (m : str -> option nat) (s : str) :
  forall k, findall_with m k s = findall_with m 0 (skipn k s).
Proof.
  induction s as [|c r IH]; intros k; [now destruct k|].
  destruct k as [|k]; [reflexivity|]. cbn [findall_with skipn]. apply IH.
Qed.

Lemma number_with_skip (m : str -> option nat) (s : str) :
  forall k i, number_with m k i s = number_with m 0 i (skipn k s).
Proof.
  induction s as [|c r IH]; intros k i; [now destruct k|].
  destruct k as [|k]; [reflexivity|]. cbn [number_with skipn]. apply IH.
Qed.

Lemma placeholder_chars (i : nat) (x : char) :
  In x (py "$" ++ str_of_nat (i + 1) ++ py "$") -> ~ In x (py "https://").
Proof.
  intros Hx Ha.
  assert (Hcases : x = 36%N \/ isdecimal x = true).
  { apply in_app_iff in Hx. destruct Hx as [[<-|[]]|Hx]; [now left|].
    apply in_app_iff in Hx. destruct Hx as [Hx|[<-|[]]]; [|now left].
    right. destruct (str_of_nat_digits (i + 1)) as [_ Hd].
    rewrite Forall_forall in Hd. now apply Hd. }
  simpl in Ha.
  destruct Hcases as [->|Hd];
    repeat (destruct Ha as [Ha|Ha]; [try discriminate; subst x; discriminate|]);
    contradiction.
Qed.

Lemma no_match_before_placeholder (done u v rest : str) (i : nat) :
  ~ In nl u -> ~ In nl v ->
  no_match_before match_image_link done
    ((py "https://" ++ u ++ py "zhimg.com/" ++ v ++ py ".jpg") ++ rest) ->
  no_match_before match_image_link
    (done ++ py "$" ++ str_of_nat (i + 1) ++ py "$") rest.
Proof.
  intros Hu Hv Hdone p Hp.
  set (ph := py "$" ++ str_of_nat (i + 1) ++ py "$") in *.
  rewrite <- app_assoc.
  destruct (Nat.lt_ge_cases p (length done)) as [Hlt|Hge].
  - rewrite skipn_app_le by lia.
    specialize (Hdone p Hlt). rewrite skipn_app_le in Hdone by lia.
    destruct (match_image_link (skipn p done ++ ph ++ rest)) eqn:Hm;
      [|reflexivity].
    exfalso. revert Hdone.
    apply (match_expand (py "https://") (py "zhimg.com/") (py ".jpg")
             (skipn p done) rest u v 36%N (str_of_nat (i + 1) ++ py "$"));
      try assumption;
      try (simpl; intuition discriminate).
    change (36%N :: str_of_nat (i + 1) ++ py "$") with ph.
    unfold match_image_link in Hm. now rewrite Hm.
  - rewrite skipn_app. rewrite (skipn_all2 done) by lia. cbn [app].
    rewrite length_app in Hp.
    rewrite skipn_app_le by lia.
    destruct (skipn (p - length done) ph) as [|d ph'] eqn:Hs.
    + apply (f_equal (@length char)) in Hs. rewrite length_skipn in Hs.
      change (length (@nil char)) with 0 in Hs. lia.
    + assert (Hd : ~ In d (py "https://")).
      { apply (placeholder_chars i). fold ph.
        apply (skipn_incl (p - length done)). rewrite Hs. now left. }
      unfold match_image_link, match_lazy3.
      change (py "https://") with (104%N :: py "ttps://") in Hd |- *.
      cbn [app strip_prefix].
      destruct (104 =? d)%N eqn:Hh; [|reflexivity].
      apply N.eqb_eq in Hh. exfalso. apply Hd. now left.
Qed.

Lemma replace_links_number (n : nat) :
  forall s, length s <= n ->
  forall i done,
    no_match_before match_image_link done s ->
    replace_links i (findall_with match_image_link 0 s) (done ++ s)
    = done ++ number_with match_image_link 0 i s.
Proof.
  induction n as [|n IH]; intros s Hlen i done Hdone.
  - destruct s; [|simpl in Hlen; lia]. reflexivity.
  - destruct s as [|c r]; [reflexivity|].
    cbn [findall_with number_with].
    destruct (match_image_link (c :: r)) as [len|] eqn:Hm.
    + pose proof (match_lazy3_length _ _ _ _ _ Hm)
        as [u [v [rest [Hs' [Hlink [Hu Hv]]]]]].
      set (link := py "https://" ++ u ++ py "zhimg.com/" ++ v ++ py ".jpg") in *.
      assert (Hf : firstn len (c :: r) = link).
      { rewrite Hs', Hlink. now apply firstn_app_exact. }
      symmetry in Hlink.
      assert (Hpos : len = S (pred len)).
      { rewrite <- Hlink. unfold link. rewrite length_app. simpl. lia. }
      assert (Hrest : skipn (pred len) r = rest).
      { change (skipn (pred len) r) with (skipn (S (pred len)) (c :: r)).
        rewrite <- Hpos, Hs', <- Hlink. now apply skipn_app_exact. }
      rewrite findall_with_skip, number_with_skip, Hrest, Hf.
      cbn [replace_links]. fold link.
      rewrite Hs' in Hdone |- *.
      rewrite replace_first_in_place.
      * rewrite (app_assoc done).
        rewrite IH; [now rewrite <- !app_assoc| |].
        -- apply (f_equal (@length char)) in Hs'.
           rewrite length_app in Hs'. simpl in Hs', Hlen. lia.
        -- exact (no_match_before_placeholder done u v rest i Hu Hv Hdone).
      * unfold link. discriminate.
      * intros p Hp. specialize (Hdone p Hp).
        destruct (strip_prefix link (skipn p (done ++ link ++ rest)))
          as [rest'|] eqn:Hsp; [|reflexivity].
        apply strip_prefix_spec in Hsp. exfalso. rewrite Hsp in Hdone.
        revert Hdone. unfold link. rewrite <- !app_assoc.
        apply match_lazy3_complete; try assumption.
        simpl; intuition discriminate.
    + change (done ++ c :: r) with (done ++ [c] ++ r). rewrite app_assoc.
      rewrite IH; [now rewrite <- app_assoc| |].
      * simpl in Hlen. lia.
      * intros p Hp. rewrite <- app_assoc. rewrite length_app in Hp.
        destruct (Nat.lt_ge_cases p (length done)) as [Hlt|Hge];
          [now apply Hdone|].
        assert (p = length done) by (simpl in Hp; lia). subst p.
        now rewrite skipn_app_exact.
Qed.

(** X13: The loop of [process_markdown] puts [$1$], [$2$], ... each in the place
    of the link it stands for: the text that the loop leaves is the one that
    a single scan from the left gives, which numbers the matches of the
    link pattern as it meets them; the search links are deleted from it. *)
Theorem process_markdown_numbers_in_place (markdown_output : str) :
  fst (process_markdown markdown_output)
  = sub_with match_search_link 0
      (number_with match_image_link 0 0 markdown_output).
Proof.
  unfold process_markdown. cbn [fst]. f_equal.
  apply (replace_links_number (length markdown_output) markdown_output
           (Nat.le_refl _) 0 []).
  intros p Hp. simpl in Hp. lia.
Qed.

(** ** The text without segments *)

(** X14: [split_markdown_for_video_with_image_split] returns no segment exactly
    when the text is empty or made of whitespace only. *)
Theorem no_segment_iff_blank (text : str) (max_words : Z) :
  split_markdown_for_video_with_image_split text max_words = []
  <-> strip text = [].
Proof.
  rewrite strip_nil_iff, <- (split_markdown_contents text max_words). split.
  - now intros ->.
  - intros Hc. pose proof (segments_trimmed_all text max_words) as Hall.
    destruct (split_markdown_for_video_with_image_split text max_words)
      as [|s segs]; [reflexivity|].
    inversion Hall as [|? ? Hs _]; subst. apply trimmed_nonblank in Hs.
    unfold contents in Hc. cbn [map concat] in Hc.
    apply app_eq_nil in Hc. now elim Hs.
Qed.
